(** * lovsang-to-slides: the text pipeline of [app.py]

    A shallow embedding of the lyric pipeline of [app.py]
    (stripper, grouper, cleaner, even chunker, deck assembler) and of the
    [/build] route, followed by the properties the specification states
    about them.

    Python values are modelled as follows.
    - [int] is [Z]; [//] and [%] are [Z.div] and [Z.modulo] (both floor
      towards minus infinity and follow the sign of the divisor, as in
      Python) and raise [ZeroDivisionError] on a zero divisor.
    - [str] is a list of Unicode code points ([N]).
    - a [list] is a [list]; [len] returns a [Z].
    - a call that may raise returns a [result].
    - what lies outside the program is a parameter and its state is passed
      explicitly: the network of [generate] and the [int] that reads its
      [max_lines] field; the file system, [mkdtemp], the [mkslides]
      process of [build], the decoder of its output and the removals that
      the system refuses; the global dictionary [builds] is a [gmap]. *)

From Stdlib Require Import ZArith Lia String Ascii.
From stdpp Require Import base list gmap.

Local Open Scope Z_scope.

(** ** Python primitives used by [app.py] *)

Module Py.

Inductive exn : Type :=
| ZeroDivisionError
| ValueError
| UnicodeDecodeError
| HTTPError
| Abort (status : Z).

Inductive result (A : Type) : Type :=
| Ok (a : A)
| Raise (e : exn).
Arguments Ok {A} a.
Arguments Raise {A} e.

Definition bind {A B} (m : result A) (k : A -> result B) : result B :=
  match m with
  | Ok a => k a
  | Raise e => Raise e
  end.

(** [len(l)] *)
Definition len {A} (l : list A) : Z := Z.of_nat (length l).

(** [a // b] on [int] *)
Definition floordiv (a b : Z) : result Z :=
  if b =? 0 then Raise ZeroDivisionError else Ok (a / b).

(** [a % b] on [int] *)
Definition mod_ (a b : Z) : result Z :=
  if b =? 0 then Raise ZeroDivisionError else Ok (a mod b).

(** [math.ceil(a / b)] on two [int]s.  [a / b] is the correctly rounded
    double nearest to the quotient and [math.ceil] returns an [int]; for
    [|a| < 2^53] (every list length that fits in memory) the rounding
    never crosses an integer, so the value is the exact ceiling of the
    rational quotient, [- floor (- a / b)]. *)
Definition ceil_truediv (a b : Z) : result Z :=
  if b =? 0 then Raise ZeroDivisionError else Ok (- ((- a) / b)).

(** [range(n)]: [0, 1, ..., n-1], empty when [n <= 0]. *)
Definition range (n : Z) : list Z := map Z.of_nat (seq 0 (Z.to_nat n)).

(** An index of a slice, as [PySlice_AdjustIndices] resolves it for a
    sequence of length [n]: a negative index counts from the end, and the
    result is clamped to [0..n]. *)
Definition adjust (n i : Z) : Z :=
  if i <? 0 then Z.max 0 (i + n) else Z.min i n.

(** [l[lo:hi]] *)
Definition slice {A} (l : list A) (lo hi : Z) : list A :=
  let lo' := adjust (len l) lo in
  let hi' := adjust (len l) hi in
  take (Z.to_nat (hi' - lo')) (drop (Z.to_nat lo') l).

(** *** Strings *)

(** [lit "abc"] is the [str] of an ASCII literal. *)
Definition lit (s : string) : list N :=
  map N_of_ascii (list_ascii_of_string s).

(** The line feed, ["\n"]. *)
Definition LF : N := 10%N.
(** The carriage return, ["\r"]. *)
Definition CR : N := 13%N.

(** [c.isspace()], the characters [str.strip()] removes: the code points
    CPython's [_PyUnicode_IsWhitespace] accepts. *)
Definition isspace (c : N) : bool :=
  ((9 <=? c) && (c <=? 13) || (28 <=? c) && (c <=? 32) ||
   (c =? 133) || (c =? 160) || (c =? 5760) ||
   (8192 <=? c) && (c <=? 8202) ||
   (c =? 8232) || (c =? 8233) || (c =? 8239) || (c =? 8287) ||
   (c =? 12288))%N.

(** The line boundaries of [str.splitlines()]
    (CPython's [_PyUnicode_IsLinebreak]). *)
Definition is_linebreak (c : N) : bool :=
  ((10 <=? c) && (c <=? 13) || (28 <=? c) && (c <=? 30) ||
   (c =? 133) || (c =? 8232) || (c =? 8233))%N.

(** [s.lstrip()], [s.rstrip()], [s.strip()] *)
Fixpoint lstrip (s : list N) : list N :=
  match s with
  | c :: s' => if isspace c then lstrip s' else s
  | [] => []
  end.
Definition rstrip (s : list N) : list N := reverse (lstrip (reverse s)).
Definition strip (s : list N) : list N := rstrip (lstrip s).

(** [s.startswith(p)], [s.endswith(p)] *)
Fixpoint startswith (s p : list N) {struct p} : bool :=
  match p, s with
  | [], _ => true
  | c :: p', d :: s' => (c =? d)%N && startswith s' p'
  | _ :: _, [] => false
  end.
Definition endswith (s p : list N) : bool :=
  startswith (reverse s) (reverse p).

(** [p in s]: [p] occurs in [s] as a substring. *)
Fixpoint contains (p s : list N) : bool :=
  startswith s p ||
  match s with
  | [] => false
  | _ :: s' => contains p s'
  end.

(** [sep.join(l)] *)
Fixpoint join (sep : list N) (l : list (list N)) : list N :=
  match l with
  | [] => []
  | [x] => x
  | x :: l' => x ++ sep ++ join sep l'
  end.

(** [s.splitlines()]: [cur] is the line being read.  A line ends at a
    line boundary, ["\r\n"] counting as one; what follows the last
    boundary is a line only when it is not empty. *)
Fixpoint splitlines_from (cur s : list N) : list (list N) :=
  match s with
  | [] => match cur with [] => [] | _ => [cur] end
  | c :: s' =>
      if is_linebreak c then
        match s' with
        | d :: s'' =>
            if (c =? CR)%N && (d =? LF)%N
            then cur :: splitlines_from [] s''
            else cur :: splitlines_from [] s'
        | [] => cur :: splitlines_from [] s'
        end
      else splitlines_from (cur ++ [c]) s'
  end.
Definition splitlines (s : list N) : list (list N) := splitlines_from [] s.

(** [s.split("\n")], used below to read the lines of the deck. *)
Fixpoint split_from (sep : N) (cur s : list N) : list (list N) :=
  match s with
  | [] => [cur]
  | c :: s' =>
      if (c =? sep)%N then cur :: split_from sep [] s'
      else split_from sep (cur ++ [c]) s'
  end.
Definition split (sep : N) (s : list N) : list (list N) :=
  split_from sep [] s.

End Py.

Import Py.

Notation "'let*' x ':=' m 'in' k" := (Py.bind m (fun x => k))
  (at level 10, x name, m at level 100, k at level 200).

Abbreviation str := (list N).

(** ** The fragment of [re] used by [app.py]

    Both patterns of [chordpro_to_plain] are sequences of items, where an
    item is a character set, possibly optional ([?]) or repeated greedily
    ([+]), and a character set is one character or the complement of one
    character. *)

Module Re.

Inductive cset : Type :=
| Chr (c : N)
| NotChr (c : N).

Inductive item : Type :=
| One (cs : cset)
| Opt (cs : cset)
| Plus (cs : cset).

Definition pattern : Type := list item.

Definition cset_mem (cs : cset) (c : N) : bool :=
  match cs with
  | Chr d => (c =? d)%N
  | NotChr d => negb (c =? d)%N
  end.

(** One step of a character set on the subject. *)
Definition eat (cs : cset) (s : str) : option str :=
  match s with
  | c :: s' => if cset_mem cs c then Some s' else None
  | [] => None
  end.

(** The greedy [+] of a character set, followed by the rest [k] of the
    pattern: take one character, then first try to take one more, and
    only when that fails hand over to [k]. *)
Fixpoint plus_len (cs : cset) (k : str -> option nat) (s : str) : option nat :=
  match s with
  | c :: s' =>
      if cset_mem cs c then
        match plus_len cs k s' with
        | Some n => Some (S n)
        | None => S <$> k s'
        end
      else None
  | [] => None
  end.

(** [match_len p s] is the length of the match the backtracking engine
    finds for [p] at the start of [s] (for a match object [m],
    [m.end() - m.start()]), or [None] when [p] does not match there.
    The quantifiers are greedy: [?] first tries to take its character and
    gives way only when the rest of the pattern fails. *)
Fixpoint match_len (p : pattern) (s : str) : option nat :=
  match p with
  | [] => Some 0%nat
  | One cs :: p' =>
      match eat cs s with
      | Some s' => S <$> match_len p' s'
      | None => None
      end
  | Opt cs :: p' =>
      match eat cs s with
      | Some s' =>
          match match_len p' s' with
          | Some n => Some (S n)
          | None => match_len p' s
          end
      | None => match_len p' s
      end
  | Plus cs :: p' => plus_len cs (match_len p') s
  end.

(** [re.sub(p, "", s)], scanning [s] from the left: [skip] is the
    number of characters of the current match still to delete.  A match
    found at a position is deleted and the scan resumes after it; where
    [p] does not match, or matches the empty string (replaced by the
    empty string), the character is kept. *)
Fixpoint sub_scan (p : pattern) (skip : nat) (s : str) : str :=
  match s with
  | [] => []
  | c :: s' =>
      match skip with
      | S k => sub_scan p k s'
      | O =>
          match match_len p s with
          | Some (S k) => sub_scan p k s'
          | _ => c :: sub_scan p 0 s'
          end
      end
  end.

Definition sub_empty (p : pattern) (s : str) : str := sub_scan p 0 s.

End Re.

(** ** [chordpro_to_plain] (app.py, lines 35-44) *)

(** [r"\[/?[^\]]+\]"] *)
Definition chord_re : Re.pattern :=
  [Re.One (Re.Chr 91); Re.Opt (Re.Chr 47); Re.Plus (Re.NotChr 93);
   Re.One (Re.Chr 93)].

(** [r"<[^>]+>"] *)
Definition tag_re : Re.pattern :=
  [Re.One (Re.Chr 60); Re.Plus (Re.NotChr 62); Re.One (Re.Chr 62)].

(** The body of [for ln in cp.splitlines()]; [continue] leaves [out] as it
    is. *)
Definition plain_step (out : list str) (ln : str) : list str :=
  let ln := strip ln in
  if startswith ln (lit "{") && endswith ln (lit "}") then out
  else
    let ln := Re.sub_empty chord_re ln in
    let ln := Re.sub_empty tag_re ln in
    out ++ [ln].

Definition chordpro_to_plain (cp : str) : list str :=
  fold_left plain_step (splitlines cp) [].

(** [s] occurs in [body] as it is. *)
Definition occurs (s body : str) : Prop :=
  exists pre post : str, body = pre ++ s ++ post.

(** The words of the specification of the stripper.  A directive line
    starts with [{] (123) and ends with [}] (125). *)
Definition is_directive (t : str) : Prop :=
  (exists s, t = 123%N :: s) /\ (exists s, t = s ++ [125%N]).

(** A bracketed token: an opening bracket (91), an optional slash (47),
    a content that is not empty and has no closing bracket (93), then a
    closing bracket. *)
Definition chord_token (t : str) : Prop :=
  exists content : str,
    content <> [] /\ (93%N ∉ content) /\
    (t = 91%N :: content ++ [93%N] \/ t = 91%N :: 47%N :: content ++ [93%N]).

(** An angle-bracket token: [<] (60), a content that is not empty and
    has no [>] (62), then [>]. *)
Definition tag_token (t : str) : Prop :=
  exists content : str,
    content <> [] /\ (62%N ∉ content) /\ t = 60%N :: content ++ [62%N].

(** [removed tok s r]: reading [s] from the left, every token met is
    dropped and every character at which no token starts is kept; [r] is
    what is kept. *)
Inductive removed (tok : str -> Prop) : str -> str -> Prop :=
| removed_nil : removed tok [] []
| removed_token (t s r : str) :
    tok t -> removed tok s r -> removed tok (t ++ s) r
| removed_keep (c : N) (s r : str) :
    (forall t s', tok t -> c :: s <> t ++ s') ->
    removed tok s r -> removed tok (c :: s) (c :: r).

(** A token of either kind, for the reading in which the tokens of both
    kinds are looked for in the trimmed line itself. *)
Definition markup_token (t : str) : Prop := chord_token t \/ tag_token t.

(** [bracket_token o c t]: [t] is [o], a content that is not empty and
    has no [c], then [c]; the angle-bracket tokens are
    [bracket_token 60 62] and the bracketed tokens, whose optional [/] is
    a character of the content, are [bracket_token 91 93]. *)
Definition bracket_token (o c : N) (t : str) : Prop :=
  exists content : str,
    content <> [] /\ (c ∉ content) /\ t = o :: content ++ [c].

(** No token occurs in [r]. *)
Definition token_free (tok : str -> Prop) (r : str) : Prop :=
  forall t : str, tok t -> ~ occurs t r.

(** [trimmed ln t]: [t] is [ln] without its leading and trailing
    whitespace. *)
Definition trimmed (ln t : str) : Prop :=
  exists ws1 ws2 : str,
    ln = ws1 ++ t ++ ws2 /\
    Forall (fun c => isspace c = true) ws1 /\
    Forall (fun c => isspace c = true) ws2 /\
    (forall c s, t = c :: s -> isspace c = false) /\
    (forall c s, t = s ++ [c] -> isspace c = false).

(** What one source line contributes to the output of the stripper. *)
Definition line_output (ln : str) (o : list str) : Prop :=
  exists t : str, trimmed ln t /\
    ((is_directive t /\ o = []) \/
     (~ is_directive t /\
      exists mid r : str,
        removed chord_token t mid /\ removed tag_token mid r /\ o = [r])).

(** The same with the tokens of both kinds taken from the trimmed line
    itself, in one reading. *)
Definition line_output_worded (ln : str) (o : list str) : Prop :=
  exists t : str, trimmed ln t /\
    ((is_directive t /\ o = []) \/
     (~ is_directive t /\ exists r : str,
        removed markup_token t r /\ o = [r])).

(** ** [split_groups] (app.py, lines 46-57) *)

(** The body of [for ln in lines]; the state is [(groups, buf)]. *)
Definition group_step (st : list (list str) * list str) (ln : str)
    : list (list str) * list str :=
  let '(groups, buf) := st in
  if decide (ln = []) then
    if decide (buf = []) then (groups, buf) else (groups ++ [buf], [])
  else (groups, buf ++ [ln]).

(** After the loop: [if buf: groups.append(buf)]. *)
Definition close_buf (st : list (list str) * list str) : list (list str) :=
  let '(groups, buf) := st in
  if decide (buf = []) then groups else groups ++ [buf].

Definition split_groups (lines : list str) : list (list str) :=
  close_buf (fold_left group_step lines ([], [])).

(** The input shape of the grouper's property: [layout segs] is a sequence
    of runs, each followed by its number of empty lines. *)
Fixpoint layout (segs : list (list str * nat)) : list str :=
  match segs with
  | [] => []
  | (run, blanks) :: segs' => run ++ replicate blanks [] ++ layout segs'
  end.

(** A run is a non-empty sequence of non-empty lines. *)
Definition is_run (run : list str) : Prop :=
  run <> [] /\ Forall (fun ln => ln <> []) run.

(** Every run but the last is followed by at least one empty line (so the
    runs are maximal); the last may be followed by none. *)
Fixpoint separated (segs : list (list str * nat)) : Prop :=
  match segs with
  | [] => True
  | (run, blanks) :: segs' =>
      is_run run /\ (segs' <> [] -> (1 <= blanks)%nat) /\ separated segs'
  end.

(** ** [clean_group] (app.py, lines 59-60) *)

Definition clean_group (g : list str) : list str :=
  List.filter (fun ln => negb (contains (lit ":") ln)) g.

(** ** [chunk_even] (app.py, lines 62-74) *)

Section Chunker.
Context {A : Type}.

(** The body of [for i in range(num)]: the state is [(out, idx)]. *)
Definition chunk_step (g : list A) (base rem : Z)
    (st : list (list A) * Z) (i : Z) : list (list A) * Z :=
  let '(out, idx) := st in
  let sz := base + (if i <? rem then 1 else 0) in
  (out ++ [slice g idx (idx + sz)], idx + sz).

Definition chunk_even (g : list A) (maxl : Z) : result (list (list A)) :=
  let n := len g in
  if n <=? maxl then Ok [g] else
  let* num := ceil_truediv n maxl in
  let* base := floordiv n num in
  let* rem := mod_ n num in
  let '(out, _) := fold_left (chunk_step g base rem) (range num) ([], 0) in
  Ok out.

End Chunker.

(** ** [generate] (app.py, lines 82-109) *)

(** ["\n".join(ln + "  " for ln in chunk)] *)
Definition render_chunk (chunk : list str) : str :=
  join [LF] (map (fun ln => ln ++ lit "  ") chunk).

(** The body of [for chunk in chunk_even(cg, max_lines)]: two appends to
    [md_blocks]. *)
Definition chunk_body (md_blocks : list str) (chunk : list str) : list str :=
  (md_blocks ++ [render_chunk chunk]) ++ [[LF] ++ lit "---" ++ [LF]].

(** A [for] loop whose body may raise. *)
Fixpoint for_each {S X} (body : S -> X -> result S) (l : list X) (s : S)
    : result S :=
  match l with
  | [] => Ok s
  | x :: l' => let* s' := body s x in for_each body l' s'
  end.

(** The body of [for g in groups]. *)
Definition group_body (max_lines : Z) (md_blocks : list str) (g : list str)
    : result (list str) :=
  let cg := clean_group g in
  if decide (cg = []) then Ok md_blocks
  else
    let* chunks := chunk_even cg max_lines in
    Ok (fold_left chunk_body chunks md_blocks).

(** The chunks that the body of [for g in groups] hands to the assembler,
    collected in order (a ghost of [group_body]). *)
Definition group_chunks (max_lines : Z) (acc : list (list str)) (g : list str)
    : result (list (list str)) :=
  let cg := clean_group g in
  if decide (cg = []) then Ok acc
  else
    let* chunks := chunk_even cg max_lines in
    Ok (acc ++ chunks).

Section Generate.

(** The network is outside the program: [fetch_chordpro_url] and
    [download_chordpro] read it through [requests.get], and either may
    raise.  They are parameters here, threading the state of the world. *)
Variable world : Type.
Variable fetch_chordpro_url : str -> world -> result str * world.
Variable download_chordpro : str -> world -> result str * world.

(** The body of [for url in urls], over any per-group body [gb] and loop
    state [S]: with [gb := group_body] and the state [md_blocks] it is the
    loop of [generate]. *)
Definition url_body {S} (gb : S -> list str -> result S)
    (st : S) (url : str) (w : world) : result S * world :=
  let url := strip url in
  if decide (url = []) then (Ok st, w)
  else
    match fetch_chordpro_url url w with
    | (Raise e, w) => (Raise e, w)
    | (Ok txt_url, w) =>
        match download_chordpro txt_url w with
        | (Raise e, w) => (Raise e, w)
        | (Ok cp_text, w) =>
            let lines := chordpro_to_plain cp_text in
            let groups := split_groups lines in
            (for_each gb groups st, w)
        end
    end.

Fixpoint url_loop {S} (gb : S -> list str -> result S)
    (urls : list str) (st : S) (w : world) : result S * world :=
  match urls with
  | [] => (Ok st, w)
  | url :: urls' =>
      match url_body gb st url w with
      | (Raise e, w) => (Raise e, w)
      | (Ok st', w) => url_loop gb urls' st' w
      end
  end.

(** [generate]: [urls] and [max_lines] are the two fields of the form,
    the second already through [int(...)]; the result is [full_md], the
    text handed to the [editor.html] template. *)
Definition generate (urls : str) (max_lines : Z) (w : world)
    : result str * world :=
  let urls := splitlines urls in
  let md_blocks := [lit "---" ++ [LF]] in
  match url_loop (group_body max_lines) urls md_blocks w with
  | (Raise e, w) => (Raise e, w)
  | (Ok md_blocks, w) => (Ok (strip (join [LF] md_blocks)), w)
  end.

(** The chunks of a run of [generate], in the order the assembler receives
    them. *)
Definition generate_chunks (urls : str) (max_lines : Z) (w : world)
    : result (list (list str)) * world :=
  url_loop (group_chunks max_lines) (splitlines urls) [] w.

End Generate.

Section GenerateRequest.

(** [int(s)] on a [str] is outside the program too: the integer that [s]
    spells, or [ValueError]. *)
Variable world : Type.
Variable fetch_chordpro_url : str -> world -> result str * world.
Variable download_chordpro : str -> world -> result str * world.
Variable int : str -> result Z.

(** [int(request.form.get(k, 5))]: a field that is absent gives the
    default, which is an [int] already. *)
Definition form_int (field : option str) : result Z :=
  match field with
  | Some s => int s
  | None => Ok 5
  end.

(** [generate] from the form as it is posted ([None] is a field that is
    absent): line 85 reads [max_lines] with [int] before the loop starts,
    and what [int] raises leaves the route. *)
Definition generate_request (urls max_lines : option str) (w : world)
    : result str * world :=
  let urls := default [] urls in
  match form_int max_lines with
  | Raise e => (Raise e, w)
  | Ok max_lines =>
      generate world fetch_chordpro_url download_chordpro urls max_lines w
  end.

End GenerateRequest.

(** The lines of a slide block of the deck: an empty line, every line of
    the chunk followed by two spaces, an empty line, the separator. *)
Definition block_lines (chunk : list str) : list str :=
  [[]] ++ map (fun ln => ln ++ lit "  ") chunk ++ [[]; lit "---"].

(** The text of a slide block of the deck. *)
Definition block_text (chunk : list str) : str :=
  [LF; LF] ++ render_chunk chunk ++ [LF; LF] ++ lit "---".

(** The text of the deck of a sequence of chunks. *)
Definition deck_text (chunks : list (list str)) : str :=
  lit "---" ++ concat (map block_text chunks).

(** What the assembler appends for a sequence of chunks. *)
Definition blocks_of (chunks : list (list str)) : list str :=
  flat_map (fun ch => [render_chunk ch; [LF] ++ lit "---" ++ [LF]]) chunks.

(** The chunks that reach the assembler are not empty and their lines have
    no line feed. *)
Definition good_chunk (ch : list str) : Prop :=
  ch <> [] /\ Forall (fun ln : str => LF ∉ ln) ch.

(** [lockstep ra rb md acc]: a loop of [generate] started with [md] and
    its ghost started with [acc] end alike, either raising the same
    exception or having appended the blocks of the same good chunks. *)
Definition lockstep (ra : result (list str)) (rb : result (list (list str)))
    (md : list str) (acc : list (list str)) : Prop :=
  match ra, rb with
  | Raise e, Raise e' => e = e'
  | Ok md', Ok acc' =>
      exists cs : list (list str),
        md' = md ++ blocks_of cs /\ acc' = acc ++ cs /\ Forall good_chunk cs
  | _, _ => False
  end.

(** ** [build] (app.py, lines 111-147) *)

(** [os.path.join(a, b)] on POSIX paths. *)
Definition path_join (a b : str) : str :=
  if startswith b (lit "/") then b
  else if decide (a = []) then b
  else if endswith a (lit "/") then a ++ b
  else a ++ lit "/" ++ b.

(** [os.path.basename(p)]: what follows the last [/] of [p]. *)
Fixpoint basename_from (cur p : str) : str :=
  match p with
  | [] => cur
  | c :: p' => if (c =? 47)%N then basename_from [] p'
               else basename_from (cur ++ [c]) p'
  end.
Definition basename (p : str) : str := basename_from [] p.

(** A file system: what is at each path. *)
Inductive node : Type :=
| Dir
| File (content : str).

(** [path] is [root] or lies below it. *)
Definition below (root path : str) : Prop :=
  path = root \/ startswith path (root ++ lit "/") = true.

(** [shutil.rmtree(root, ignore_errors=True)]: what lies at or below
    [root] is removed unless its removal fails, and a removal that fails
    is passed over in silence.  [deletable p] says that the removal of
    what is at [p] succeeds. *)
Definition rmtree (deletable : str -> bool) (root : str)
    (fs : gmap str node) : gmap str node :=
  filter (fun kv => ~ (below root kv.1 /\ deletable kv.1 = true)) fs.

(** The process state of the server: the file system and the global
    [builds]. *)
Record state : Type := State {
  fs : gmap str node;
  builds : gmap str str
}.

(** What a process leaves when it ends: its exit code and the bytes it
    wrote to the two pipes. *)
Record exited : Type := Exited {
  exit_code : Z;
  stdout_bytes : list N;
  stderr_bytes : list N
}.

(** What [subprocess.run] hands over with [text=True]: the return code
    and the two outputs as [str]. *)
Record completed : Type := Completed {
  returncode : Z;
  stdout : str;
  stderr : str
}.

(** How a call of [subprocess.run(..., text=True, check=True)] ends. *)
Inductive run_outcome : Type :=
| Returned (proc : completed)
| CalledProcessError (e : completed)
| Raised (e : exn).

(** What a route returns to Flask. *)
Inductive response : Type :=
| Html (body : str) (status : Z)
| Redirect (location : str).

(** A strict decoder, for the examples: ASCII. *)
Definition decode_ascii (b : list N) : result str :=
  if forallb (fun c => (c <? 128)%N) b then Ok b else Raise UnicodeDecodeError.

Section Build.

(** [tempfile.mkdtemp(prefix=...)] chooses the path of a new directory;
    the external builder [mkslides], run with an argument list on a file
    system, leaves a file system and ends; [decode] is the strict decoder
    of the locale, which raises [UnicodeDecodeError] on bytes that are not
    text; [deletable] is what the system lets [rmtree] remove.  The
    builder is taken to start and to end, and creating the directory and
    writing [slides.md] to succeed. *)
Variable mkdtemp : str -> gmap str node -> str.
Variable mkslides : list str -> gmap str node -> exited * gmap str node.
Variable decode : list N -> result str.
Variable deletable : str -> bool.

(** The argument list of the builder for a build rooted at [tmp_root]. *)
Definition build_argv (tmp_root : str) : list str :=
  [lit "mkslides"; lit "build"; path_join tmp_root (lit "slides.md");
   lit "--site-dir"; path_join tmp_root (lit "site")].

(** [subprocess.run(argv, stdout=PIPE, stderr=PIPE, text=True,
    check=True)]: the process runs to its end, the captured stdout and
    then the captured stderr are decoded, and only then is the return
    code looked at. *)
Definition subprocess_run (argv : list str) (fs : gmap str node)
    : run_outcome * gmap str node :=
  let '(p, fs) := mkslides argv fs in
  match decode (stdout_bytes p) with
  | Raise e => (Raised e, fs)
  | Ok out =>
      match decode (stderr_bytes p) with
      | Raise e => (Raised e, fs)
      | Ok err =>
          if decide (exit_code p = 0)
          then (Returned (Completed (exit_code p) out err), fs)
          else (CalledProcessError (Completed (exit_code p) out err), fs)
      end
  end.

(** The page returned when the builder fails. *)
Definition error_page (md_file site_dir out err : str) : str :=
  lit "<h1>Build error</h1>" ++
  lit "<h2>Command</h2><pre>mkslides build " ++ md_file ++
    lit " --site-dir " ++ site_dir ++ lit "</pre>" ++
  lit "<h2>stdout</h2><pre>" ++ out ++ lit "</pre>" ++
  lit "<h2>stderr</h2><pre>" ++ err ++ lit "</pre>".

(** [build]: [markdown] is the field of the form.  The [except] clause
    handles [CalledProcessError] alone: any other exception of
    [subprocess.run] leaves the route with the temporary directory as the
    builder left it.  The line written to the log on success is left
    out. *)
Definition build (markdown : str) (st : state) : result response * state :=
  let md := strip markdown in
  if decide (md = []) then (Raise (Abort 400), st)
  else
    let tmp_root := mkdtemp (lit "mkslides_") (fs st) in
    let fs1 := <[tmp_root := Dir]> (fs st) in
    let site_dir := path_join tmp_root (lit "site") in
    let md_file := path_join tmp_root (lit "slides.md") in
    let fs2 := <[md_file := File md]> fs1 in
    match
      subprocess_run
        [lit "mkslides"; lit "build"; md_file; lit "--site-dir"; site_dir] fs2
    with
    | (Returned proc, fs3) =>
        let build_id := basename tmp_root in
        (Ok (Redirect (lit "/preview/" ++ build_id ++ lit "/")),
         State fs3 (<[build_id := site_dir]> (builds st)))
    | (CalledProcessError e, fs3) =>
        (Ok (Html (error_page md_file site_dir (stdout e) (stderr e)) 500),
         State (rmtree deletable tmp_root fs3) (builds st))
    | (Raised e, fs3) => (Raise e, State fs3 (builds st))
    end.

(** The file system the builder is started on, and how it ends. *)
Definition builder_run (markdown : str) (st : state)
    : exited * gmap str node :=
  let tmp_root := mkdtemp (lit "mkslides_") (fs st) in
  mkslides (build_argv tmp_root)
    (<[path_join tmp_root (lit "slides.md") := File (strip markdown)]>
       (<[tmp_root := Dir]> (fs st))).

End Build.

(** ** [fetch_chordpro_url] and [download_chordpro] (app.py, lines 21-33) *)

(** [re.search(p, s)]: the leftmost position at which [p] matches, with the
    length of the match there; [pos] counts the characters already passed.
    The end of the subject is a position too. *)
Fixpoint search_from (p : Re.pattern) (pos : nat) (s : str)
    : option (nat * nat) :=
  match Re.match_len p s with
  | Some n => Some (pos, n)
  | None =>
      match s with
      | [] => None
      | _ :: s' => search_from p (S pos) s'
      end
  end.
Definition re_search (p : Re.pattern) (s : str) : option (nat * nat) :=
  search_from p 0 s.

(** The characters of a literal, as a pattern. *)
Definition literal (s : str) : Re.pattern :=
  map (fun c => Re.One (Re.Chr c)) s.

(** What stands before and after the group of the pattern of
    [fetch_chordpro_url]: [initializeSongPage(] and a double quote (34)
    before it, a double quote and [)] after it. *)
Definition song_open : str := lit "initializeSongPage(" ++ [34%N].
Definition song_close : str := [34%N] ++ lit ")".

(** The pattern of [fetch_chordpro_url], the group apart: the opening
    literal, one or more characters other than a double quote, [.txt], the
    closing literal. *)
Definition song_re : Re.pattern :=
  literal song_open ++ [Re.Plus (Re.NotChr 34)] ++ literal (lit ".txt") ++
  literal song_close.

(** [m.group(1)] for a match of [song_re] of length [n] at [start]: the
    pattern has 20 literal characters before its group and 2 after it, so
    the group is the match without its first 20 and last 2 characters. *)
Definition song_group (s : str) (start n : nat) : str :=
  take (n - 22) (drop (start + 20) s).

(** What the program reads of the [Response] of [requests.get]: the
    status, [r.text] as [requests] decodes it, and [r.text] once
    [r.encoding] is set to ["utf-8"]. *)
Record http_response : Type := HttpResponse {
  status_code : Z;
  text : str;
  text_utf8 : str
}.

(** [r.raise_for_status()] *)
Definition raise_for_status (r : http_response) : result unit :=
  if (400 <=? status_code r) && (status_code r <? 600)
  then Raise HTTPError else Ok tt.

Section Fetch.

(** [requests.get] reads the network; any exception of it is a [Raise]. *)
Variable world : Type.
Variable requests_get : str -> world -> result http_response * world.

Definition fetch_chordpro_url (page_url : str) (w : world)
    : result str * world :=
  match requests_get page_url w with
  | (Raise e, w) => (Raise e, w)
  | (Ok r, w) =>
      match raise_for_status r with
      | Raise e => (Raise e, w)
      | Ok _ =>
          match re_search song_re (text r) with
          | None => (Raise (Abort 400), w)
          | Some (start, n) => (Ok (song_group (text r) start n), w)
          end
      end
  end.

Definition download_chordpro (txt_url : str) (w : world)
    : result str * world :=
  match requests_get txt_url w with
  | (Raise e, w) => (Raise e, w)
  | (Ok r, w) =>
      match raise_for_status r with
      | Raise e => (Raise e, w)
      | Ok _ => (Ok (text_utf8 r), w)
      end
  end.

End Fetch.

(** A reference to a song text, as a page embeds it: a stem that is not
    empty followed by [.txt], without a double quote. *)
Definition song_url (u : str) : Prop :=
  exists stem : str, stem <> [] /\ u = stem ++ lit ".txt" /\ (34%N ∉ u).

(** [page] embeds the reference [u] after [pre]. *)
Definition embeds_at (page pre u : str) : Prop :=
  exists post : str, page = pre ++ song_open ++ u ++ song_close ++ post.

(** ** [preview] (app.py, lines 149-161) *)

Section Preview.

(** [send_from_directory] of Flask is a parameter: it reads the file
    system and answers with a file or raises. *)
Variable file_response : Type.
Variable send_from_directory :
  str -> str -> gmap str node -> result file_response.

(** [for fn in (...): if os.path.exists(os.path.join(root, fn)): return
    send_from_directory(root, fn)], then [abort(404)]. *)
Fixpoint default_document (root : str) (fns : list str) (m : gmap str node)
    : result file_response :=
  match fns with
  | [] => Raise (Abort 404)
  | fn :: fns' =>
      if decide (is_Some (m !! path_join root fn))
      then send_from_directory root fn m
      else default_document root fns' m
  end.

Definition preview (build_id path : str) (st : state) : result file_response :=
  match builds st !! build_id with
  | None => Raise (Abort 404)
  | Some root =>
      if decide (path = [])
      then default_document root [lit "slides.html"; lit "index.html"] (fs st)
      else send_from_directory root path (fs st)
  end.

End Preview.

(* ================================================================= *)
(** * Properties *)

(** ** Arithmetic of Python's slices and of the chunk sizes *)

Lemma slice_take_drop {A} (l : list A) (lo hi : Z) :
  0 <= lo <= hi ->
  slice l lo hi = take (Z.to_nat (hi - lo)) (drop (Z.to_nat lo) l).
Proof.
  intros [Hlo Hhi]. unfold slice, adjust, len.
  destruct (Z.ltb_spec lo 0); [lia|].
  destruct (Z.ltb_spec hi 0); [lia|].
  destruct (Z_le_gt_dec hi (Z.of_nat (length l))) as [Hh|Hh].
  - rewrite (Z.min_l hi), (Z.min_l lo) by lia. reflexivity.
  - rewrite (Z.min_r hi) by lia.
    destruct (Z_le_gt_dec lo (Z.of_nat (length l))) as [Hl|Hl].
    + rewrite (Z.min_l lo) by lia.
      rewrite !take_ge; [reflexivity | |]; rewrite length_drop; lia.
    + rewrite (Z.min_r lo) by lia.
      rewrite Z.sub_diag. simpl.
      rewrite (drop_ge l (Z.to_nat lo)) by lia. by rewrite take_nil.
Qed.

Lemma concat_reshape {A} (sizes : list nat) (l : list A) :
  concat (reshape sizes l) = take (sum_list sizes) l.
Proof.
  revert l. induction sizes as [|s sizes IH]; intros l; simpl.
  - by rewrite take_0.
  - by rewrite IH, take_take_drop.
Qed.

Lemma map_length_reshape {A} (sizes : list nat) (l : list A) :
  (sum_list sizes <= length l)%nat ->
  map length (reshape sizes l) = sizes.
Proof.
  revert l. induction sizes as [|s sizes IH]; intros l Hs; simpl in *; [done|].
  rewrite IH by (rewrite length_drop; lia).
  rewrite length_take. f_equal. lia.
Qed.

(** The loop of [chunk_even], run over any list of indices whose sizes are
    not negative, appends the pieces that stdpp's [reshape] cuts from [g]
    at [idx]. *)
Lemma chunk_loop_reshape {A} (g : list A) (base rem : Z) (ixs : list Z) :
  forall (out : list (list A)) (idx : Z),
  0 <= base -> 0 <= idx ->
  fold_left (chunk_step g base rem) ixs (out, idx) =
  (out ++ reshape (map (fun i => Z.to_nat (base + (if i <? rem then 1 else 0))) ixs)
               (drop (Z.to_nat idx) g),
   idx + Z.of_nat (sum_list
           (map (fun i => Z.to_nat (base + (if i <? rem then 1 else 0))) ixs))).
Proof.
  induction ixs as [|i ixs IH]; intros out idx Hb Hi; simpl.
  - rewrite app_nil_r. f_equal. lia.
  - set (sz := base + (if i <? rem then 1 else 0)).
    assert (0 <= sz) by (subst sz; destruct (i <? rem); lia).
    rewrite IH by lia. rewrite <- app_assoc. simpl.
    rewrite slice_take_drop by lia. rewrite drop_drop.
    replace (idx + sz - idx) with sz by lia.
    replace (Z.to_nat (idx + sz)) with (Z.to_nat idx + Z.to_nat sz)%nat by lia.
    f_equal. lia.
Qed.

(** The sizes over [range num] are [rem] times [base + 1], then [base]. *)
Lemma sizes_range (base rem : Z) (a k : nat) :
  0 <= base ->
  map (fun i => Z.to_nat (base + (if i <? rem then 1 else 0)))
      (map Z.of_nat (seq a k)) =
  replicate (Z.to_nat (rem - Z.of_nat a) `min` k) (Z.to_nat (base + 1)) ++
  replicate (k - Z.to_nat (rem - Z.of_nat a)) (Z.to_nat base).
Proof.
  intros Hb. revert a. induction k as [|k IH]; intros a; simpl.
  - by rewrite Nat.min_0_r.
  - rewrite IH. destruct (Z.ltb_spec (Z.of_nat a) rem) as [Hlt|Hge].
    + replace (Z.to_nat (rem - Z.of_nat a))
        with (S (Z.to_nat (rem - Z.of_nat (S a)))) by lia.
      reflexivity.
    + replace (Z.to_nat (rem - Z.of_nat a)) with 0%nat by lia.
      replace (Z.to_nat (rem - Z.of_nat (S a))) with 0%nat by lia.
      simpl. by rewrite Z.add_0_r, Nat.sub_0_r.
Qed.

Lemma sum_list_app (l k : list nat) :
  sum_list (l ++ k) = (sum_list l + sum_list k)%nat.
Proof. induction l as [|x l IH]; simpl; lia. Qed.

(** What [math.ceil(n / maxl)], [n // num] and [n % num] are when the
    group is longer than a positive [maxl]. *)
Lemma ceil_truediv_bounds (n maxl : Z) :
  1 <= maxl ->
  (- ((- n) / maxl) - 1) * maxl < n <= - ((- n) / maxl) * maxl.
Proof.
  intros Hm.
  pose proof (Z.div_mod (- n) maxl ltac:(lia)) as Hdm.
  pose proof (Z.mod_pos_bound (- n) maxl ltac:(lia)) as Hb.
  nia.
Qed.

Lemma ceil_unique (n maxl a b : Z) :
  1 <= maxl ->
  (a - 1) * maxl < n <= a * maxl ->
  (b - 1) * maxl < n <= b * maxl ->
  a = b.
Proof. intros Hm Ha Hb. nia. Qed.

(** With a negative [maxl] the number of chunks is not positive. *)
Lemma ceil_truediv_nonpositive (n maxl : Z) :
  0 <= n -> maxl < 0 -> - ((- n) / maxl) <= 0.
Proof.
  intros Hn Hm.
  replace (- n / maxl) with (n / - maxl)
    by (rewrite <- (Z.div_opp_opp n (- maxl)) by lia;
        by rewrite Z.opp_involutive).
  pose proof (Z.div_pos n (- maxl) Hn ltac:(lia)). lia.
Qed.

(** The quantities [chunk_even] computes for a group longer than [maxl]. *)
Lemma chunk_arith (n maxl : Z) :
  1 <= maxl -> maxl < n ->
  let num := - ((- n) / maxl) in
  let base := n / num in
  let rem := n mod num in
  2 <= num <= n /\ 1 <= base <= maxl /\ 0 <= rem < num /\
  n = num * base + rem /\ (0 < rem -> base + 1 <= maxl).
Proof.
  intros Hm Hn num base rem.
  pose proof (ceil_truediv_bounds n maxl Hm) as Hc. fold num in Hc.
  assert (2 <= num <= n) as Hnum by nia.
  pose proof (Z.div_mod n num ltac:(lia)) as Hdm. fold base rem in Hdm.
  pose proof (Z.mod_pos_bound n num ltac:(lia)) as Hr. fold rem in Hr.
  assert (1 <= base) by nia.
  repeat split; try lia; nia.
Qed.

(** [chunk_even] on a group longer than [maxl]: the loop cuts [g] into
    [rem] pieces of [base + 1] lines followed by [num - rem] pieces of
    [base] lines. *)
Lemma chunk_even_long {A} (g : list A) (maxl : Z) :
  1 <= maxl -> maxl < len g ->
  let num := - ((- len g) / maxl) in
  let base := len g / num in
  let rem := len g mod num in
  chunk_even g maxl =
  Ok (reshape (replicate (Z.to_nat rem) (Z.to_nat (base + 1)) ++
            replicate (Z.to_nat (num - rem)) (Z.to_nat base)) g).
Proof.
  intros Hm Hn num base rem.
  destruct (chunk_arith (len g) maxl Hm Hn) as (Hnum & Hbase & Hrem & Hsum & _).
  fold num base rem in Hnum, Hbase, Hrem, Hsum.
  unfold chunk_even.
  destruct (Z.leb_spec (len g) maxl); [lia|].
  unfold ceil_truediv. destruct (Z.eqb_spec maxl 0); [lia|]. simpl.
  fold num. unfold floordiv, mod_.
  destruct (Z.eqb_spec num 0); [lia|]. simpl. fold base rem.
  unfold range. rewrite chunk_loop_reshape by lia.
  rewrite sizes_range by lia. simpl. rewrite drop_0.
  do 3 f_equal; f_equal; lia.
Qed.

Lemma length_concat_le {A} (cs : list (list A)) (m : Z) :
  0 <= m ->
  Forall (fun c => len c <= m) cs ->
  len (concat cs) <= Z.of_nat (length cs) * m.
Proof.
  intros Hm. induction 1 as [|c cs Hc _ IH]; unfold len in *; simpl; [lia|].
  rewrite length_app. nia.
Qed.

Lemma map_replicate {B C} (f : B -> C) (n : nat) (x : B) :
  map f (replicate n x) = replicate n (f x).
Proof. induction n as [|n IH]; simpl; [done|]. by rewrite IH. Qed.

(** The lengths of the chunks of a group longer than [maxl]. *)
Lemma chunk_even_long_sizes {A} (g : list A) (maxl : Z) :
  1 <= maxl -> maxl < len g ->
  let num := - ((- len g) / maxl) in
  let base := len g / num in
  let rem := len g mod num in
  exists out, chunk_even g maxl = Ok out /\
    map len out = replicate (Z.to_nat rem) (base + 1) ++
                  replicate (Z.to_nat (num - rem)) base.
Proof.
  intros Hm Hn num base rem.
  destruct (chunk_arith (len g) maxl Hm Hn) as (Hnum & Hbase & Hrem & Hsum & _).
  fold num base rem in Hnum, Hbase, Hrem, Hsum.
  eexists. split; [by apply chunk_even_long|]. fold num base rem.
  unfold len at 1. rewrite <- (map_map length Z.of_nat).
  rewrite map_length_reshape.
  - rewrite map_app, !map_replicate. f_equal; f_equal; lia.
  - rewrite sum_list_app, !sum_list_replicate. unfold len in *. nia.
Qed.

(** ** The even chunker *)

(** C1. Chunker round-trip: for a group of at least one line and
    [maxl >= 1], [chunk_even] returns chunks whose concatenation, in
    order, is exactly the group. *)
Theorem chunk_even_roundtrip {A} (g : list A) (maxl : Z) :
  g <> [] -> 1 <= maxl ->
  exists out, chunk_even g maxl = Ok out /\ concat out = g.
Proof.
  intros Hg Hm. destruct (Z_le_gt_dec (len g) maxl) as [Hle|Hgt].
  - exists [g]. unfold chunk_even.
    destruct (Z.leb_spec (len g) maxl); [|lia].
    split; [done|]. simpl. apply app_nil_r.
  - eexists. split; [apply chunk_even_long; lia|].
    destruct (chunk_arith (len g) maxl Hm ltac:(lia)) as (Hnum & Hbase & Hrem & Hsum & _).
    rewrite concat_reshape. apply take_ge.
    rewrite sum_list_app, !sum_list_replicate. unfold len in *. nia.
Qed.

Lemma chunk_even_roundtrip_witness :
  [1; 2; 3; 4; 5; 6; 7] <> [] /\ 1 <= 3 /\
  exists out, chunk_even [1; 2; 3; 4; 5; 6; 7] 3 = Ok out /\
              concat out = [1; 2; 3; 4; 5; 6; 7].
Proof.
  split; [discriminate|]. split; [lia|].
  apply (chunk_even_roundtrip [1; 2; 3; 4; 5; 6; 7] 3); [discriminate | lia].
Defined.

(** C2. Chunk count and size distribution: a group that fits in [maxl]
    lines is returned as a single chunk; a longer group is cut into
    [num = ceil(n / maxl)] chunks (the integer with
    [(num - 1) * maxl < n <= num * maxl]), the first [rem = n mod num] of
    [base + 1 = n div num + 1] lines and the other [num - rem] of [base]
    lines, so any two chunk sizes differ by at most one. *)
Theorem chunk_even_distribution {A} (g : list A) (maxl num base rem : Z) :
  1 <= maxl ->
  (len g <= maxl -> chunk_even g maxl = Ok [g]) /\
  (maxl < len g ->
   (num - 1) * maxl < len g <= num * maxl ->
   base = len g / num -> rem = len g mod num ->
   exists out, chunk_even g maxl = Ok out /\
     len out = num /\
     map len out = replicate (Z.to_nat rem) (base + 1) ++
                   replicate (Z.to_nat (num - rem)) base /\
     (forall c1 c2, c1 ∈ out -> c2 ∈ out -> Z.abs (len c1 - len c2) <= 1)).
Proof.
  intros Hm. split.
  - intros Hle. unfold chunk_even.
    by destruct (Z.leb_spec (len g) maxl); [|lia].
  - intros Hn Hnum -> ->.
    pose proof (ceil_truediv_bounds (len g) maxl Hm) as Hc.
    assert (num = - (- len g / maxl)) as -> by (eapply ceil_unique; eauto).
    destruct (chunk_arith (len g) maxl Hm Hn) as (Hnum' & Hbase & Hrem & Hsum & _).
    destruct (chunk_even_long_sizes g maxl Hm Hn) as (out & Hout & Hsz).
    exists out. split; [done|]. split; [|split; [done|]].
    + unfold len at 1. rewrite <- (length_map len out), Hsz.
      rewrite length_app, !length_replicate. lia.
    + assert (forall c, c ∈ out ->
                len c = len g / - (- len g / maxl) + 1 \/
                len c = len g / - (- len g / maxl)) as Hall.
      { intros c Hc'. apply (list_elem_of_fmap_2 len) in Hc'.
        change (len <$> out) with (map len out) in Hc'. rewrite Hsz in Hc'.
        apply elem_of_app in Hc' as [Hc'|Hc'];
          apply elem_of_replicate in Hc' as [-> _]; auto. }
      intros c1 c2 H1 H2.
      destruct (Hall c1 H1) as [->| ->], (Hall c2 H2) as [->| ->]; lia.
Qed.

Lemma chunk_even_distribution_witness :
  1 <= 3 /\
  (len [1; 2; 3; 4; 5; 6; 7] <= 3 ->
   chunk_even [1; 2; 3; 4; 5; 6; 7] 3 = Ok [[1; 2; 3; 4; 5; 6; 7]]) /\
  (exists out, chunk_even [1; 2; 3; 4; 5; 6; 7] 3 = Ok out /\
     len out = 3 /\
     map len out = replicate (Z.to_nat 1) (2 + 1) ++
                   replicate (Z.to_nat (3 - 1)) 2 /\
     (forall c1 c2, c1 ∈ out -> c2 ∈ out -> Z.abs (len c1 - len c2) <= 1)).
Proof.
  split; [lia|].
  destruct (chunk_even_distribution [1; 2; 3; 4; 5; 6; 7] 3 3 2 1) as [H1 H2];
    [lia|].
  split; [exact H1|].
  apply H2; [reflexivity | split; reflexivity || discriminate | reflexivity | reflexivity].
Defined.

(** C3. Chunk size bound and minimality: for a group of at least one line
    and [maxl >= 1], the chunks of [chunk_even] cover the group, none has
    more than [maxl] lines, and no way of cutting the group into pieces of
    at most [maxl] lines uses fewer pieces. *)
Theorem chunk_even_bound_minimal {A} (g : list A) (maxl : Z) :
  g <> [] -> 1 <= maxl ->
  exists out, chunk_even g maxl = Ok out /\
    concat out = g /\
    Forall (fun c => len c <= maxl) out /\
    (forall cs : list (list A),
       concat cs = g -> Forall (fun c => len c <= maxl) cs ->
       (length out <= length cs)%nat).
Proof.
  intros Hg Hm. destruct (Z_le_gt_dec (len g) maxl) as [Hle|Hgt].
  - exists [g]. unfold chunk_even.
    destruct (Z.leb_spec (len g) maxl); [|lia].
    split; [done|]. split; [apply app_nil_r|].
    split; [by repeat constructor|].
    intros [|c cs] Hcs _; simpl in *; [congruence | lia].
  - assert (maxl < len g) as Hn by lia.
    destruct (chunk_arith (len g) maxl Hm Hn) as (Hnum & Hbase & Hrem & Hsum & Hb1).
    destruct (chunk_even_long_sizes g maxl Hm Hn) as (out & Hout & Hsz).
    pose proof (ceil_truediv_bounds (len g) maxl Hm) as Hc.
    exists out. split; [done|]. split; [|split].
    + rewrite chunk_even_long in Hout by done. injection Hout as <-.
      rewrite concat_reshape. apply take_ge.
      rewrite sum_list_app, !sum_list_replicate. unfold len in *. nia.
    + apply Forall_forall. intros c Hc'.
      apply (list_elem_of_fmap_2 len) in Hc'.
      change (len <$> out) with (map len out) in Hc'. rewrite Hsz in Hc'.
      apply elem_of_app in Hc' as [Hc'|Hc'];
        apply elem_of_replicate in Hc' as [-> Hpos]; lia.
    + intros cs Hcs Hall.
      pose proof (length_concat_le cs maxl ltac:(lia) Hall) as Hcov.
      rewrite Hcs in Hcov.
      assert (len out = - (- len g / maxl)) as Hlen.
      { unfold len at 1. rewrite <- (length_map len out), Hsz.
        rewrite length_app, !length_replicate. lia. }
      unfold len at 1 in Hlen. nia.
Qed.

Lemma chunk_even_bound_minimal_witness :
  [1; 2; 3; 4; 5; 6; 7] <> [] /\ 1 <= 3 /\
  exists out, chunk_even [1; 2; 3; 4; 5; 6; 7] 3 = Ok out /\
    concat out = [1; 2; 3; 4; 5; 6; 7] /\
    Forall (fun c => len c <= 3) out /\
    (forall cs : list (list Z),
       concat cs = [1; 2; 3; 4; 5; 6; 7] -> Forall (fun c => len c <= 3) cs ->
       (length out <= length cs)%nat).
Proof.
  split; [discriminate|]. split; [lia|].
  apply (chunk_even_bound_minimal [1; 2; 3; 4; 5; 6; 7] 3); [discriminate | lia].
Defined.

(** C9 as stated fails: the one-line group [[7]] with [maxl = -5] does not
    give the empty list, it raises [ZeroDivisionError] (at [n // num],
    where [num = math.ceil(1 / -5) = 0]). *)
Lemma chunk_even_negative_counterexample :
  [7] <> [] /\ -5 < 0 /\
  chunk_even [7] (-5) = Raise ZeroDivisionError /\
  ~ (forall (g : list Z) (maxl : Z),
       g <> [] -> maxl < 0 -> chunk_even g maxl = Ok []).
Proof.
  split; [discriminate|]. split; [lia|]. split; [reflexivity|].
  intros H. specialize (H [7] (-5) ltac:(discriminate) ltac:(lia)).
  vm_compute in H. discriminate H.
Qed.

(** C9, amended. Outside its precondition, on a group of at least one line:
    a negative [maxl] gives the empty list when the group has at least
    [- maxl] lines, and [ZeroDivisionError] when it has fewer;
    [maxl = 0] gives [ZeroDivisionError]. *)
Theorem chunk_even_nonpositive {A} (g : list A) (maxl : Z) :
  g <> [] -> maxl <= 0 ->
  chunk_even g maxl =
  if (maxl <? 0) && (- maxl <=? len g) then Ok [] else Raise ZeroDivisionError.
Proof.
  intros Hg Hm.
  assert (1 <= len g) as Hn by (destruct g; [done | unfold len; simpl; lia]).
  unfold chunk_even. destruct (Z.leb_spec (len g) maxl); [lia|].
  unfold ceil_truediv. destruct (Z.eqb_spec maxl 0) as [->|Hne]; [done|].
  destruct (Z.ltb_spec maxl 0); [|lia]. simpl.
  replace (- len g / maxl) with (len g / - maxl)
    by (rewrite <- (Z.div_opp_opp (len g) (- maxl)) by lia;
        by rewrite Z.opp_involutive).
  unfold floordiv, mod_.
  destruct (Z.leb_spec (- maxl) (len g)) as [Hle|Hgt].
  - assert (0 < len g / - maxl) by (apply Z.div_str_pos; lia).
    destruct (Z.eqb_spec (- (len g / - maxl)) 0); [lia|]. simpl.
    unfold range. by replace (Z.to_nat (- (len g / - maxl))) with 0%nat by lia.
  - rewrite Z.div_small by lia. reflexivity.
Qed.

Lemma chunk_even_nonpositive_witness :
  [1; 2; 3] <> [] /\ -2 <= 0 /\ chunk_even [1; 2; 3] (-2) = Ok [].
Proof.
  split; [discriminate|]. split; [lia|].
  apply (chunk_even_nonpositive [1; 2; 3] (-2)); [discriminate | lia].
Defined.

(** ** The stripper *)

(** *** What the two patterns match *)

(** [[^c]+c]: when it matches, the subject starts with a non-empty content
    free of [c], followed by [c]; the match is that content and the [c]. *)
Lemma plus_close_Some (close : N) (s : str) (n : nat) :
  Re.plus_len (Re.NotChr close) (Re.match_len [Re.One (Re.Chr close)]) s = Some n ->
  exists content rest : str,
    content <> [] /\ (close ∉ content) /\
    s = content ++ close :: rest /\ n = S (length content).
Proof.
  revert n. induction s as [|c s IH]; intros n; simpl; [done|].
  destruct (N.eqb_spec c close) as [->|Hc]; simpl; [done|].
  destruct (Re.plus_len _ _ s) as [m|] eqn:Hplus.
  - intros [= <-]. destruct (IH m eq_refl) as (content & rest & Hne & Hnin & -> & ->).
    exists (c :: content), rest. repeat split; try done.
    rewrite elem_of_cons. intros [?|?]; congruence.
  - destruct s as [|d s]; simpl; [done|].
    destruct (N.eqb_spec d close) as [->|Hd]; simpl; [|done].
    intros [= <-]. exists [c], s. repeat split; try done.
    rewrite list_elem_of_singleton. congruence.
Qed.

Lemma plus_close_None (close : N) (s : str) :
  Re.plus_len (Re.NotChr close) (Re.match_len [Re.One (Re.Chr close)]) s = None ->
  forall content rest : str,
    content <> [] -> close ∉ content -> s <> content ++ close :: rest.
Proof.
  induction s as [|c s IH]; simpl; intros Hplus content rest Hne Hnin Heq.
  - by destruct content.
  - destruct content as [|c' content]; [done|]. injection Heq as <- ->.
    rewrite not_elem_of_cons in Hnin. destruct Hnin as [Hc Hnin].
    destruct (N.eqb_spec c close) as [->|_]; [done|]. simpl in Hplus.
    destruct (Re.plus_len _ _ (content ++ close :: rest)) as [m|] eqn:Hrec;
      [done|].
    destruct content as [|c'' content].
    + simpl in Hplus. by rewrite N.eqb_refl in Hplus.
    + by eapply (IH eq_refl (c'' :: content) rest).
Qed.

(** A token is determined by where it starts. *)
Lemma content_unique (close : N) (c1 c2 r1 r2 : str) :
  close ∉ c1 -> close ∉ c2 ->
  c1 ++ close :: r1 = c2 ++ close :: r2 -> c1 = c2 /\ r1 = r2.
Proof.
  revert c2. induction c1 as [|x c1 IH]; intros [|y c2] H1 H2 Heq; simpl in *.
  - by injection Heq as ->.
  - injection Heq as <- _. by apply not_elem_of_cons in H2 as [? _].
  - injection Heq as -> _. by apply not_elem_of_cons in H1 as [? _].
  - injection Heq as -> Heq.
    apply not_elem_of_cons in H1 as [_ H1].
    apply not_elem_of_cons in H2 as [_ H2].
    destruct (IH c2 H1 H2 Heq) as [-> ->]. done.
Qed.

(** A bracketed token with the optional [/] is also one without it, the
    [/] being part of the content. *)
Lemma chord_token_plain (t : str) :
  chord_token t <->
  exists content : str,
    content <> [] /\ (93%N ∉ content) /\ t = 91%N :: content ++ [93%N].
Proof.
  split.
  - intros (content & Hne & Hnin & [->| ->]); [by exists content|].
    exists (47%N :: content). repeat split; try done.
    rewrite elem_of_cons. intros [?|?]; done.
  - intros (content & Hne & Hnin & ->). exists content. auto.
Qed.

Lemma chord_re_Some (s : str) (n : nat) :
  Re.match_len chord_re s = Some n ->
  exists t rest : str, chord_token t /\ s = t ++ rest /\ n = length t.
Proof.
  assert (forall s1 m,
    Re.plus_len (Re.NotChr 93) (Re.match_len [Re.One (Re.Chr 93)]) s1 = Some m ->
    exists t rest : str,
      chord_token t /\ 91%N :: s1 = t ++ rest /\ S m = length t) as Hplain.
  { intros s1 m (content & rest & Hne & Hnin & -> & ->)%plus_close_Some.
    exists (91%N :: content ++ [93%N]), rest. split; [|split].
    - apply chord_token_plain. by exists content.
    - simpl. by rewrite <- app_assoc.
    - simpl. rewrite length_app. simpl. lia. }
  unfold chord_re. destruct s as [|c s]; simpl; [done|].
  destruct (N.eqb_spec c 91) as [->|_]; simpl; [|done].
  destruct s as [|d s].
  { simpl. done. }
  cbn [Re.eat Re.cset_mem].
  destruct (N.eqb_spec d 47) as [->|Hd].
  - cbn [Re.match_len].
    destruct (Re.plus_len _ _ s) as [m|] eqn:Hin.
    + intros [= <-].
      apply plus_close_Some in Hin as (content & rest & Hne & Hnin & -> & ->).
      exists (91%N :: 47%N :: content ++ [93%N]), rest. split; [|split].
      * exists content. auto.
      * simpl. by rewrite <- app_assoc.
      * simpl. rewrite length_app. simpl. lia.
    + destruct (Re.plus_len _ _ (47%N :: s)) as [m|] eqn:Hout; simpl; [|done].
      intros [= <-]. by apply Hplain.
  - cbn [Re.match_len].
    destruct (Re.plus_len _ _ (d :: s)) as [m|] eqn:Hout; simpl; [|done].
    intros [= <-]. by apply Hplain.
Qed.

Lemma chord_re_None (s : str) :
  Re.match_len chord_re s = None ->
  forall t rest : str, chord_token t -> s <> t ++ rest.
Proof.
  intros Hnone t rest (content & Hne & Hnin & ->)%chord_token_plain ->.
  assert (Re.plus_len (Re.NotChr 93) (Re.match_len [Re.One (Re.Chr 93)])
            (content ++ 93%N :: rest) <> None) as Hplus.
  { intros Hp. by eapply (plus_close_None _ _ Hp content rest). }
  unfold chord_re in Hnone. simpl in Hnone. rewrite <- app_assoc in Hnone.
  simpl in Hnone.
  destruct (content ++ 93%N :: rest) as [|d s1] eqn:Hs1.
  { by destruct content. }
  cbn [Re.eat Re.cset_mem] in Hnone.
  destruct (N.eqb_spec d 47) as [->|Hd]; cbn [Re.match_len] in Hnone.
  - destruct (Re.plus_len _ _ s1); [done|].
    destruct (Re.plus_len _ _ (47%N :: s1)); [done|]. done.
  - destruct (Re.plus_len _ _ (d :: s1)); [done|]. done.
Qed.

Lemma tag_re_Some (s : str) (n : nat) :
  Re.match_len tag_re s = Some n ->
  exists t rest : str, tag_token t /\ s = t ++ rest /\ n = length t.
Proof.
  unfold tag_re. destruct s as [|c s]; simpl; [done|].
  destruct (N.eqb_spec c 60) as [->|_]; simpl; [|done].
  destruct (Re.plus_len _ _ s) as [m|] eqn:Hin; simpl; [|done].
  intros [= <-].
  apply plus_close_Some in Hin as (content & rest & Hne & Hnin & -> & ->).
  exists (60%N :: content ++ [62%N]), rest. split; [|split].
  - by exists content.
  - simpl. by rewrite <- app_assoc.
  - simpl. rewrite length_app. simpl. lia.
Qed.

Lemma tag_re_None (s : str) :
  Re.match_len tag_re s = None ->
  forall t rest : str, tag_token t -> s <> t ++ rest.
Proof.
  intros Hnone t rest (content & Hne & Hnin & ->) ->.
  unfold tag_re in Hnone. simpl in Hnone. rewrite <- app_assoc in Hnone.
  simpl in Hnone.
  destruct (Re.plus_len _ _ (content ++ 62%N :: rest)) eqn:Hp; [done|].
  by eapply (plus_close_None _ _ Hp content rest).
Qed.

(** *** [re.sub] with an empty replacement removes the tokens *)

Lemma sub_scan_skip (p : Re.pattern) (k : nat) (s : str) :
  Re.sub_scan p k s = Re.sub_scan p 0 (drop k s).
Proof.
  revert k. induction s as [|c s IH]; intros [|k]; try done.
  simpl. apply IH.
Qed.

Section Sub.
Variable p : Re.pattern.
Variable tok : str -> Prop.
Hypothesis p_Some : forall (s : str) (n : nat),
  Re.match_len p s = Some n ->
  exists t rest : str, tok t /\ s = t ++ rest /\ n = length t.
Hypothesis p_None : forall s : str,
  Re.match_len p s = None -> forall t rest : str, tok t -> s <> t ++ rest.
Hypothesis tok_nonempty : forall t : str, tok t -> t <> [].
Hypothesis tok_unique : forall t1 t2 r1 r2 : str,
  tok t1 -> tok t2 -> t1 ++ r1 = t2 ++ r2 -> t1 = t2.

Lemma sub_empty_removed (s : str) : removed tok s (Re.sub_empty p s).
Proof.
  unfold Re.sub_empty.
  assert (forall (n : nat) (s : str),
            (length s <= n)%nat -> removed tok s (Re.sub_scan p 0 s)) as Hind.
  { clear s. induction n as [|n IH]; intros [|c s] Hlen; simpl in *;
      try lia; try constructor.
    destruct (Re.match_len p (c :: s)) as [[|k]|] eqn:Hm.
    - apply p_Some in Hm as (t & rest & Ht & _ & Hl).
      destruct t; [by apply tok_nonempty in Ht | done].
    - apply p_Some in Hm as (t & rest & Ht & Heq & Hl).
      destruct t as [|c' t]; [done|]. injection Heq as <- ->.
      simpl in Hl. injection Hl as ->.
      rewrite sub_scan_skip, drop_app_length.
      apply (removed_token tok (c :: t) rest); [done|].
      apply IH. rewrite length_app in Hlen. lia.
    - apply removed_keep; [by apply p_None|]. apply IH. lia. }
  by apply (Hind (length s)).
Qed.

Lemma removed_functional (s r1 r2 : str) :
  removed tok s r1 -> removed tok s r2 -> r1 = r2.
Proof.
  intros H1. revert r2.
  induction H1 as [|t s r Ht _ IH|c s r Hno _ IH]; intros r2 H2.
  - inversion H2 as [|t' s' r' Ht' _ Hu|]; [done|].
    apply app_eq_nil in Hu as [-> _]. by destruct (tok_nonempty _ Ht').
  - remember (t ++ s) as u eqn:Hu.
    destruct H2 as [|t' s' r' Ht' H2|c s' r' Hno _].
    + symmetry in Hu. apply app_eq_nil in Hu as [-> _].
      by apply tok_nonempty in Ht.
    + pose proof (tok_unique _ _ _ _ Ht' Ht Hu) as ->.
      apply app_inv_head in Hu as ->. by apply IH.
    + exfalso. by eapply Hno.
  - inversion H2 as [|t' s' r' Ht' _ Hu|c' s' r' _ H2']; subst.
    + exfalso. symmetry in Hu. by eapply Hno.
    + f_equal. by apply IH.
Qed.

(** What is kept is a sub-sequence of the subject. *)
Lemma removed_sublist (s r : str) : removed tok s r -> r `sublist_of` s.
Proof.
  induction 1 as [|t s r _ _ IH|c s r _ _ IH].
  - done.
  - by apply sublist_inserts_l.
  - by apply sublist_skip.
Qed.

End Sub.

Lemma chord_token_nonempty (t : str) : chord_token t -> t <> [].
Proof. by intros (content & _ & _ & [->| ->]). Qed.

Lemma tag_token_nonempty (t : str) : tag_token t -> t <> [].
Proof. by intros (content & _ & _ & ->). Qed.

Lemma chord_token_unique (t1 t2 r1 r2 : str) :
  chord_token t1 -> chord_token t2 -> t1 ++ r1 = t2 ++ r2 -> t1 = t2.
Proof.
  intros (c1 & _ & H1 & ->)%chord_token_plain
         (c2 & _ & H2 & ->)%chord_token_plain Heq.
  simpl in Heq. rewrite <- !app_assoc in Heq. injection Heq as Heq.
  by destruct (content_unique _ _ _ _ _ H1 H2 Heq) as [-> _].
Qed.

Lemma tag_token_unique (t1 t2 r1 r2 : str) :
  tag_token t1 -> tag_token t2 -> t1 ++ r1 = t2 ++ r2 -> t1 = t2.
Proof.
  intros (c1 & _ & H1 & ->) (c2 & _ & H2 & ->) Heq.
  simpl in Heq. rewrite <- !app_assoc in Heq. injection Heq as Heq.
  by destruct (content_unique _ _ _ _ _ H1 H2 Heq) as [-> _].
Qed.

Lemma startswith_char (c : N) (s : str) :
  startswith s [c] = true <-> exists s', s = c :: s'.
Proof.
  destruct s as [|d s]; simpl.
  - split; [done | by intros [? ?]].
  - rewrite andb_true_r, N.eqb_eq. split; [intros ->; eauto|].
    by intros [s' [= ->]].
Qed.

Lemma endswith_char (c : N) (s : str) :
  endswith s [c] = true <-> exists s', s = s' ++ [c].
Proof.
  unfold endswith. change (reverse [c]) with [c]. rewrite startswith_char.
  split.
  - intros [s' Hs]. exists (reverse s').
    by rewrite <- (reverse_involutive s), Hs, reverse_cons.
  - intros [s' ->]. exists (reverse s'). by rewrite reverse_snoc.
Qed.

Lemma directive_test (t : str) :
  startswith t (lit "{") && endswith t (lit "}") = true <-> is_directive t.
Proof.
  change (lit "{") with [123%N]. change (lit "}") with [125%N].
  by rewrite andb_true_iff, startswith_char, endswith_char.
Qed.

(** *** [str.strip] *)

Lemma lstrip_spec (s : str) :
  exists ws : str,
    s = ws ++ lstrip s /\ Forall (fun c => isspace c = true) ws /\
    (forall c s', lstrip s = c :: s' -> isspace c = false).
Proof.
  induction s as [|c s (ws & Heq & Hws & Hhd)].
  - exists []. by repeat split.
  - simpl. destruct (isspace c) eqn:Hc.
    + exists (c :: ws). split; [by rewrite Heq at 1|]. split; [by constructor|done].
    + exists []. repeat split; [done|]. by intros ? ? [= <- _].
Qed.

Lemma strip_trimmed (ln : str) : trimmed ln (strip ln).
Proof.
  unfold strip, rstrip.
  destruct (lstrip_spec ln) as (ws1 & Hln & Hws1 & Hhd1).
  destruct (lstrip_spec (reverse (lstrip ln))) as (ws2 & Hrev & Hws2 & Hhd2).
  set (l2 := lstrip (reverse (lstrip ln))) in *.
  assert (lstrip ln = reverse l2 ++ reverse ws2) as Hl1.
  { by rewrite <- reverse_app, <- Hrev, reverse_involutive. }
  exists ws1, (reverse ws2). split; [by rewrite <- Hl1|].
  split; [done|]. split; [by apply Forall_reverse|]. split.
  - intros c s Hs. apply (Hhd1 c (s ++ reverse ws2)). by rewrite Hl1, Hs.
  - intros c s Hs. apply (Hhd2 c (reverse s)).
    by rewrite <- (reverse_involutive l2), Hs, reverse_snoc.
Qed.

Lemma lstrip_spaces (ws s : str) :
  Forall (fun c => isspace c = true) ws -> lstrip (ws ++ s) = lstrip s.
Proof. induction 1 as [|c ws Hc _ IH]; simpl; [done|]. by rewrite Hc. Qed.

Lemma lstrip_id (s : str) :
  (forall c s', s = c :: s' -> isspace c = false) -> lstrip s = s.
Proof.
  destruct s as [|c s]; [done|]. intros Hhd. simpl.
  by rewrite (Hhd c s eq_refl).
Qed.

(** The trimmed form of a line is unique: it is [ln.strip()]. *)
Lemma trimmed_strip (ln t : str) : trimmed ln t -> t = strip ln.
Proof.
  intros (ws1 & ws2 & -> & Hws1 & Hws2 & Hhd & Hlast).
  unfold strip, rstrip. rewrite lstrip_spaces by done.
  destruct t as [|c t].
  - simpl. rewrite <- (app_nil_r ws2) at 1. rewrite lstrip_spaces by done.
    done.
  - rewrite (lstrip_id ((c :: t) ++ ws2)).
    + rewrite reverse_app, lstrip_spaces by (by apply Forall_reverse).
      rewrite lstrip_id; [by rewrite reverse_involutive|].
      intros d s' Hrev. apply (Hlast d (reverse s')).
      by rewrite <- (reverse_involutive (c :: t)), Hrev, reverse_cons.
    + intros d s' [= <- _]. by apply (Hhd c t).
Qed.

(** *** No token is left *)

(** An [o] at which no token starts is followed by nothing, by [c], or
    by no [c] at all. *)
Lemma no_token_start (o c : N) (s : str) :
  (forall t rest, bracket_token o c t -> o :: s <> t ++ rest) ->
  s = [] \/ (exists s', s = c :: s') \/ c ∉ s.
Proof.
  intros Hno. destruct s as [|d s]; [by left|]. right.
  destruct (decide (d = c)) as [->|Hd]; [left; eauto|]. right.
  intros Hin. apply list_elem_of_split_l in Hin as (l1 & l2 & Heq & Hl1).
  destruct l1 as [|d' l1]; simpl in Heq; injection Heq as -> ->; [done|].
  apply (Hno (o :: (d' :: l1) ++ [c]) l2).
  - by exists (d' :: l1).
  - simpl. by rewrite <- app_assoc.
Qed.

Section TokenFree.
Variables o c o' : N.
Variable tok' : str -> Prop.
Hypothesis open_not_close : o' <> c.
Hypothesis tok'_open : forall t, tok' t -> exists t', t = o' :: t'.

(** Removing the tokens [tok'] creates no [o ... c] token at an [o] where
    none started. *)
Lemma removed_no_start (s r : str) :
  removed tok' s r ->
  (forall t rest, bracket_token o c t -> o :: s <> t ++ rest) ->
  forall t rest, bracket_token o c t -> o :: r <> t ++ rest.
Proof.
  intros Hrem Hno t rest (content & Hne & Hnin & ->) Heq.
  simpl in Heq. rewrite <- app_assoc in Heq. injection Heq as ->.
  destruct (no_token_start o c s Hno) as [->|[[s' ->]|Hc]].
  - inversion Hrem as [Hr|t1 s1 r1 Ht1 _ Hs1|].
    + by destruct content.
    + apply tok'_open in Ht1 as [t' ->]. done.
  - inversion Hrem as [|t1 s1 r1 Ht1 _ Hs1|x s1 r1 _ _ [Hx Hs1] Hr].
    + apply tok'_open in Ht1 as [t' ->]. simpl in Hs1. congruence.
    + destruct content as [|y content]; [done|]. simpl in Hr.
      injection Hr as <- _. apply Hnin. by left.
  - apply Hc. eapply elem_of_sublist; [|by eapply removed_sublist].
    apply elem_of_app. right. by left.
Qed.

(** After the removal of [tok'] no [o ... c] token occurs, when [tok']
    comprises these tokens or none occurred before. *)
Lemma removed_token_free (s r : str) :
  removed tok' s r ->
  (forall t, bracket_token o c t -> tok' t) \/ token_free (bracket_token o c) s ->
  token_free (bracket_token o c) r.
Proof.
  induction 1 as [|t s r Ht Hrem IH|x s r Hkeep Hrem IH]; intros Hs.
  - intros t (content & _ & _ & ->) (pre & post & Heq). by destruct pre.
  - apply IH. destruct Hs as [?|Hfree]; [by left|]. right.
    intros t0 Ht0 (pre & post & ->). apply (Hfree t0 Ht0).
    exists (t ++ pre), post. by rewrite <- app_assoc.
  - assert (token_free (bracket_token o c) r) as Hr.
    { apply IH. destruct Hs as [?|Hfree]; [by left|]. right.
      intros t0 Ht0 (pre & post & ->). apply (Hfree t0 Ht0).
      by exists (x :: pre), post. }
    intros t0 Ht0 (pre & post & Heq).
    destruct pre as [|y pre]; simpl in Heq.
    + pose proof Ht0 as (content & _ & _ & Ht0'). subst t0.
      injection Heq as -> Heq.
      eapply (removed_no_start s r Hrem); [|exact Ht0|].
      * intros t1 rest1 Ht1 Heq1. destruct Hs as [Hsame|Hfree].
        -- by eapply Hkeep; [apply Hsame|].
        -- apply (Hfree t1 Ht1). exists [], rest1. by rewrite Heq1.
      * simpl. by rewrite Heq.
    + injection Heq as _ ->. apply (Hr t0 Ht0). by exists pre, post.
Qed.

End TokenFree.

(** What a line contributes has neither a bracketed token nor an
    angle-bracket token. *)
Lemma line_output_token_free (ln r : str) :
  line_output ln [r] -> token_free chord_token r /\ token_free tag_token r.
Proof.
  intros (t & _ & [[_ [=]]|[_ (mid & r' & Hchord & Htag & [= ->])]]).
  assert (forall t, chord_token t -> exists t', t = 91%N :: t') as Hopen.
  { intros t0 (content & _ & _ & [->| ->]); eauto. }
  assert (token_free (bracket_token 91 93) mid) as Hmid.
  { eapply (removed_token_free 91 93 91 chord_token); [done|done|done|].
    left. intros t0 Ht0. by apply chord_token_plain. }
  split.
  - intros t0 Ht0%chord_token_plain.
    eapply (removed_token_free 91 93 60 tag_token); [done| |done|by right|done].
    intros t1 (content & _ & _ & ->). eauto.
  - eapply (removed_token_free 60 62 60 tag_token); [done| |done|by left].
    intros t1 (content & _ & _ & ->). eauto.
Qed.

(** *** The loop of [chordpro_to_plain] *)

Lemma plain_step_output (out : list str) (ln : str) :
  exists o : list str, plain_step out ln = out ++ o /\ line_output ln o.
Proof.
  unfold plain_step.
  destruct (startswith (strip ln) (lit "{") && endswith (strip ln) (lit "}"))
    eqn:Hd.
  - exists []. split; [by rewrite app_nil_r|].
    exists (strip ln). split; [apply strip_trimmed|]. left.
    by apply directive_test in Hd.
  - eexists. split; [done|].
    exists (strip ln). split; [apply strip_trimmed|]. right. split.
    + intros Hdir%directive_test. congruence.
    + eexists _, _. split; [|split; [|done]].
      * apply sub_empty_removed;
          [apply chord_re_Some | apply chord_re_None | apply chord_token_nonempty].
      * apply sub_empty_removed;
          [apply tag_re_Some | apply tag_re_None | apply tag_token_nonempty].
Qed.

Lemma plain_loop_output (lines : list str) (out : list str) :
  exists outs : list (list str),
    fold_left plain_step lines out = out ++ concat outs /\
    Forall2 line_output lines outs.
Proof.
  revert out. induction lines as [|ln lines IH]; intros out; simpl.
  - exists []. by rewrite app_nil_r.
  - destruct (plain_step_output out ln) as (o & -> & Ho).
    destruct (IH (out ++ o)) as (outs & -> & Houts).
    exists (o :: outs). split; [by rewrite <- app_assoc|by constructor].
Qed.

(** What a line contributes is determined by the line. *)
Lemma line_output_functional (ln : str) (o1 o2 : list str) :
  line_output ln o1 -> line_output ln o2 -> o1 = o2.
Proof.
  intros (t1 & Ht1%trimmed_strip & H1) (t2 & Ht2%trimmed_strip & H2).
  subst t1 t2.
  destruct H1 as [[Hd1 ->]|[Hd1 (m1 & r1 & Hc1 & Hg1 & ->)]],
           H2 as [[Hd2 ->]|[Hd2 (m2 & r2 & Hc2 & Hg2 & ->)]]; try done.
  assert (m1 = m2) as ->.
  { eapply (removed_functional chord_token);
      eauto using chord_token_nonempty, chord_token_unique. }
  f_equal.
  eapply (removed_functional tag_token);
    eauto using tag_token_nonempty, tag_token_unique.
Qed.

(** C4, amended. Stripper, line by line: the output is the concatenation,
    in source order, of what each line of [cp.splitlines()] contributes,
    and a line determines what it contributes.  A line whose trimmed form
    starts with
    [{] and ends with [}] contributes nothing; any other line contributes
    exactly one line, its trimmed form with every bracketed token removed
    and then every angle-bracket token of the result removed, the other
    characters being kept as they are.  No bracketed token and no
    angle-bracket token occurs in a line of the output.  A line that is
    empty once trimmed contributes one empty line. *)
Theorem chordpro_to_plain_lines (cp : str) :
  (exists outs : list (list str),
     chordpro_to_plain cp = concat outs /\
     Forall2 line_output (splitlines cp) outs) /\
  (forall (ln : str) (o1 o2 : list str),
     line_output ln o1 -> line_output ln o2 -> o1 = o2) /\
  Forall (fun r : str => token_free chord_token r /\ token_free tag_token r)
    (chordpro_to_plain cp) /\
  (forall ln : str, trimmed ln [] -> line_output ln [[]]).
Proof.
  assert (exists outs : list (list str),
            chordpro_to_plain cp = concat outs /\
            Forall2 line_output (splitlines cp) outs) as Houts.
  { unfold chordpro_to_plain.
    destruct (plain_loop_output (splitlines cp) []) as (outs & -> & Houts).
    by exists outs. }
  split; [exact Houts|]. split; [apply line_output_functional|]. split.
  - destruct Houts as (outs & -> & Houts).
    induction Houts as [|ln o lines outs Ho _ IH]; [constructor|].
    simpl. apply Forall_app. split; [|exact IH].
    pose proof Ho as (t & _ & [[_ ->]|[_ (mid & r & _ & _ & ->)]]);
      [constructor|].
    constructor; [|constructor]. by eapply line_output_token_free.
  - intros ln Hln. exists []. split; [done|]. right. split.
    + by intros [[s Hs] _].
    + exists [], []. repeat split; constructor.
Qed.

Lemma chordpro_to_plain_lines_witness :
  trimmed (lit "  ") [] /\ line_output (lit "  ") [[]].
Proof.
  assert (trimmed (lit "  ") []) as Ht by apply (strip_trimmed (lit "  ")).
  split; [exact Ht|].
  apply (proj2 (proj2 (proj2 (chordpro_to_plain_lines []))) (lit "  ") Ht).
Defined.

Lemma markup_token_nonempty (t : str) : markup_token t -> t <> [].
Proof.
  intros [Ht|Ht]; [by apply chord_token_nonempty | by apply tag_token_nonempty].
Qed.

Lemma markup_token_unique (t1 t2 r1 r2 : str) :
  markup_token t1 -> markup_token t2 -> t1 ++ r1 = t2 ++ r2 -> t1 = t2.
Proof.
  intros [H1|H1] [H2|H2] Heq.
  - by eapply chord_token_unique.
  - exfalso. destruct H1 as (c1 & _ & _ & [-> | ->]), H2 as (c2 & _ & _ & ->);
      discriminate.
  - exfalso. destruct H1 as (c1 & _ & _ & ->), H2 as (c2 & _ & _ & [-> | ->]);
      discriminate.
  - by eapply tag_token_unique.
Qed.

(** C4, as worded, fails where a token of one kind holds a token of the
    other.  In the line [<[C]>a] the angle-bracket token [<[C]>] stands
    before [a], so the trimmed line with its tokens removed is [a]; the
    stripper takes the bracketed token [[C]] out first, finds no
    angle-bracket token in the [<>a] that is left, and gives [<>a].  So
    the output is not made of what the lines contribute in the reading of
    [line_output_worded]. *)
Lemma chordpro_to_plain_lines_counterexample :
  let ln := lit "<[C]>a" in
  strip ln = lit "<[C]>" ++ lit "a" /\
  tag_token (lit "<[C]>") /\
  removed markup_token (strip ln) (lit "a") /\
  chordpro_to_plain ln = [lit "<>a"] /\
  ~ removed markup_token (strip ln) (lit "<>a") /\
  ~ removed tag_token (strip ln) (lit "<>a") /\
  ~ (forall cp : str, exists outs : list (list str),
       chordpro_to_plain cp = concat outs /\
       Forall2 line_output_worded (splitlines cp) outs).
Proof.
  intros ln.
  assert (strip ln = lit "<[C]>" ++ lit "a") as Hs by (vm_compute; reflexivity).
  assert (tag_token (lit "<[C]>")) as Htag.
  { exists (lit "[C]"). split; [discriminate|]. split; [|reflexivity].
    intros Hin. by repeat (apply elem_of_cons in Hin as [Hin|Hin]; [discriminate|]);
      apply elem_of_nil in Hin. }
  assert (forall tok : str -> Prop,
            tok (lit "<[C]>") ->
            (forall t s', tok t -> lit "a" <> t ++ s') ->
            removed tok (strip ln) (lit "a")) as Hrem.
  { intros tok Ht Hno. rewrite Hs. apply removed_token; [done|].
    apply removed_keep; [exact Hno | constructor]. }
  assert (removed markup_token (strip ln) (lit "a")) as Hm.
  { apply Hrem; [by right|].
    intros t s' [(c & _ & _ & [-> | ->])|(c & _ & _ & ->)]; discriminate. }
  assert (removed tag_token (strip ln) (lit "a")) as Ht.
  { apply Hrem; [done|]. intros t s' (c & _ & _ & ->). discriminate. }
  assert (chordpro_to_plain ln = [lit "<>a"]) as Hcode
    by (vm_compute; reflexivity).
  assert (forall r, removed markup_token (strip ln) r -> r = lit "a") as Hfun.
  { intros r Hr.
    exact (removed_functional markup_token markup_token_nonempty
             markup_token_unique _ _ _ Hr Hm). }
  split; [exact Hs|]. split; [exact Htag|]. split; [exact Hm|].
  split; [exact Hcode|]. split; [|split].
  - by intros ?%Hfun.
  - intros H.
    by pose proof (removed_functional tag_token tag_token_nonempty
                     tag_token_unique _ _ _ Ht H).
  - intros H. destruct (H ln) as (outs & Hout & Hall).
    rewrite Hcode in Hout.
    assert (splitlines ln = [ln]) as Hl by (vm_compute; reflexivity).
    rewrite Hl in Hall.
    inversion Hall as [|? o ? outs' (t & Htr & Ho) Hnil]; subst.
    inversion Hnil; subst. simpl in Hout. rewrite app_nil_r in Hout.
    apply trimmed_strip in Htr as ->.
    destruct Ho as [[_ ->]|[_ (r & Hr%Hfun & ->)]]; [done|].
    subst r. discriminate Hout.
Qed.

(** ** The grouper *)

Lemma group_loop_run (run : list str) (groups : list (list str)) (buf : list str) :
  Forall (fun ln => ln <> []) run ->
  fold_left group_step run (groups, buf) = (groups, buf ++ run).
Proof.
  intros Hrun. revert buf.
  induction Hrun as [|ln run Hln _ IH]; intros buf; simpl.
  - by rewrite app_nil_r.
  - destruct (decide (ln = [])); [done|].
    rewrite IH. by rewrite <- app_assoc.
Qed.

Lemma group_loop_blanks (k : nat) (groups : list (list str)) (buf : list str) :
  fold_left group_step (replicate k []) (groups, buf) =
  if decide (buf = [] \/ k = 0%nat) then (groups, buf) else (groups ++ [buf], []).
Proof.
  revert groups buf. induction k as [|k IH]; intros groups buf; simpl.
  - destruct (decide _) as [|Hn]; [done|]. exfalso. apply Hn. by right.
  - destruct (decide (buf = [])) as [->|Hb].
    + rewrite IH. by rewrite !decide_True by (by left).
    + rewrite IH. rewrite decide_True by (by left).
      rewrite decide_False; [done|]. intros [?|?]; done.
Qed.

Lemma group_loop_layout (segs : list (list str * nat)) (groups : list (list str)) :
  separated segs ->
  close_buf (fold_left group_step (layout segs) (groups, [])) =
  groups ++ map fst segs.
Proof.
  revert groups. induction segs as [|[run blanks] segs IH]; intros groups Hsep.
  - simpl. unfold close_buf. simpl. by rewrite app_nil_r.
  - destruct Hsep as ([Hne Hrun] & Hblanks & Hsep). simpl.
    rewrite !fold_left_app, group_loop_run by done. simpl.
    rewrite group_loop_blanks.
    destruct (decide (run = [] \/ blanks = 0%nat)) as [ [?| ->] | Hn]; [done | |].
    + destruct segs as [|seg segs]; [|specialize (Hblanks ltac:(done)); lia].
      simpl. unfold close_buf. simpl. by rewrite decide_False.
    + rewrite IH by done. by rewrite <- app_assoc.
Qed.

(** Every sequence of lines has the shape the property speaks of: some
    empty lines, then maximal runs separated by empty lines. *)
Lemma layout_exists (lines : list str) :
  exists (b0 : nat) (segs : list (list str * nat)),
    separated segs /\ lines = replicate b0 [] ++ layout segs.
Proof.
  induction lines as [|ln lines (b0 & segs & Hsep & ->)].
  - by exists 0%nat, [].
  - destruct (decide (ln = [])) as [->|Hln].
    + by exists (S b0), segs.
    + destruct b0 as [|b0].
      * destruct segs as [|[run blanks] segs].
        -- exists 0%nat, [([ln], 0%nat)]. split; [|done].
           simpl. repeat split; try done. by repeat constructor.
        -- exists 0%nat, ((ln :: run, blanks) :: segs). split; [|done].
           destruct Hsep as ([Hne Hrun] & Hb & Hsep).
           simpl. repeat split; try done. by constructor.
      * exists 0%nat, (([ln], S b0) :: segs). split.
        -- simpl. repeat split; try done; [by repeat constructor | lia].
        -- done.
Qed.

Lemma split_groups_layout (b0 : nat) (segs : list (list str * nat)) :
  separated segs ->
  split_groups (replicate b0 [] ++ layout segs) = map fst segs.
Proof.
  intros Hsep. unfold split_groups.
  rewrite fold_left_app, group_loop_blanks.
  rewrite decide_True by (by left).
  by rewrite group_loop_layout.
Qed.

Lemma separated_runs (segs : list (list str * nat)) :
  separated segs -> Forall is_run (map fst segs).
Proof.
  induction segs as [|[run blanks] segs IH]; simpl; [by constructor|].
  intros (Hrun & _ & Hsep). constructor; auto.
Qed.

(** C5. Grouper: on [k] maximal runs of non-empty lines separated by one or
    more empty lines (with any number of empty lines before the first and
    after the last), [split_groups] returns exactly these [k] runs, in
    order; every sequence of lines has this shape; no group of the result
    is empty; lines that are all empty (or no lines) give no group. *)
Theorem split_groups_runs (lines : list str) :
  (forall (b0 : nat) (segs : list (list str * nat)),
     separated segs -> lines = replicate b0 [] ++ layout segs ->
     split_groups lines = map fst segs /\
     length (split_groups lines) = length segs) /\
  (exists (b0 : nat) (segs : list (list str * nat)),
     separated segs /\ lines = replicate b0 [] ++ layout segs) /\
  Forall (fun g => g <> []) (split_groups lines) /\
  (Forall (fun ln => ln = []) lines -> split_groups lines = []).
Proof.
  split; [|split; [|split]].
  - intros b0 segs Hsep ->. rewrite split_groups_layout by done.
    by rewrite length_map.
  - apply layout_exists.
  - destruct (layout_exists lines) as (b0 & segs & Hsep & ->).
    rewrite split_groups_layout by done.
    eapply Forall_impl; [by apply separated_runs|]. by intros run [? _].
  - intros Hall.
    assert (lines = replicate (length lines) [] ++ layout []) as ->.
    { simpl. rewrite app_nil_r. symmetry. apply replicate_as_Forall.
      split; [done|]. eapply Forall_impl; [exact Hall|]. by intros ? ->. }
    by rewrite split_groups_layout.
Qed.

Lemma split_groups_runs_witness :
  separated [([lit "a"; lit "b"], 2%nat); ([lit "c"], 0%nat)] /\
  split_groups [[]; lit "a"; lit "b"; []; []; lit "c"] =
  [[lit "a"; lit "b"]; [lit "c"]] /\
  (Forall (fun ln : str => ln = []) [[]; []] -> split_groups [[]; []] = []).
Proof.
  assert (separated [([lit "a"; lit "b"], 2%nat); ([lit "c"], 0%nat)]) as Hsep.
  { simpl. unfold is_run. repeat split; try done; try lia;
      repeat constructor; done. }
  split; [exact Hsep|]. split.
  - apply (proj1 (split_groups_runs [[]; lit "a"; lit "b"; []; []; lit "c"])
             1%nat [([lit "a"; lit "b"], 2%nat); ([lit "c"], 0%nat)] Hsep).
    reflexivity.
  - apply (proj2 (proj2 (proj2 (split_groups_runs [[]; []])))).
Defined.

(** C10. Grouper flatten identity: the concatenation of the groups of
    [split_groups] is the input with its empty lines removed. *)
Theorem split_groups_flatten (lines : list str) :
  concat (split_groups lines) = filter (fun ln => ln <> []) lines.
Proof.
  destruct (layout_exists lines) as (b0 & segs & Hsep & ->).
  rewrite split_groups_layout by done.
  rewrite filter_app.
  assert (forall k, filter (fun ln : str => ln <> []) (replicate k []) = [])
    as Hblank.
  { induction k as [|k IH]; [done|]. simpl.
    rewrite filter_cons_False; [done|]. intros H. by apply H. }
  rewrite Hblank. simpl.
  induction segs as [|[run blanks] segs IH]; [done|].
  destruct Hsep as ([_ Hrun] & _ & Hsep). simpl.
  rewrite !filter_app, Hblank, IH by done. simpl. f_equal.
  clear -Hrun. induction Hrun as [|ln run Hln _ IH]; [done|].
  rewrite filter_cons_True by done. by rewrite <- IH.
Qed.

(** ** The cleaner *)

(** For a single character, Python's substring test is membership. *)
Lemma contains_char (c : N) (s : str) : contains [c] s = true <-> c ∈ s.
Proof.
  induction s as [|d s IH].
  - simpl. split; [done | by intros ?%elem_of_nil].
  - change (contains [c] (d :: s))
      with (startswith (d :: s) [c] || contains [c] s).
    rewrite orb_true_iff, IH, startswith_char, elem_of_cons.
    split.
    + intros [[s' [= ->]]|?]; auto.
    + intros [->|?]; eauto.
Qed.

(** C6. Cleaner: [clean_group g] is the sub-sequence of the lines of [g]
    in which the character [:] does not occur, in the original order; no
    line with a [:] is in the result. *)
Theorem clean_group_no_colon (g : list str) :
  clean_group g = filter (fun ln : str => 58%N ∉ ln) g /\
  Forall (fun ln : str => 58%N ∉ ln) (clean_group g) /\
  (forall ln : str, 58%N ∈ ln -> ln ∉ clean_group g) /\
  clean_group g `sublist_of` g.
Proof.
  assert (clean_group g = filter (fun ln : str => 58%N ∉ ln) g) as Heq.
  { unfold clean_group. change (lit ":") with [58%N].
    induction g as [|ln g IH]; [done|]. cbn [List.filter].
    destruct (contains [58%N] ln) eqn:Hc; cbn [negb].
    - apply contains_char in Hc. by rewrite filter_cons_False by auto.
    - rewrite filter_cons_True; [by rewrite IH|].
      intros Hin%contains_char. congruence. }
  split; [done|]. rewrite Heq. split; [|split].
  - apply Forall_forall. by intros ln [? _]%list_elem_of_filter.
  - intros ln Hin [Hno _]%list_elem_of_filter. done.
  - apply sublist_filter.
Qed.

Lemma clean_group_no_colon_witness :
  58%N ∈ lit "Verse 1:" /\
  lit "Verse 1:" ∉ clean_group [lit "Verse 1:"; lit "a"].
Proof.
  assert (58%N ∈ lit "Verse 1:") as Hin.
  { apply contains_char. vm_compute. reflexivity. }
  split; [exact Hin|].
  exact (proj1 (proj2 (proj2
           (clean_group_no_colon [lit "Verse 1:"; lit "a"]))) _ Hin).
Defined.

(** ** The deck assembler *)

(** *** The lines that reach the assembler have no line feed *)

Lemma splitlines_from_no_LF (s cur : str) :
  LF ∉ cur -> Forall (fun ln : str => LF ∉ ln) (splitlines_from cur s).
Proof.
  remember (length s) as n eqn:Hn. revert s cur Hn.
  induction n as [n IH] using lt_wf_ind. intros s cur -> Hcur.
  destruct s as [|c s]; simpl.
  - destruct cur; by repeat constructor.
  - destruct (is_linebreak c) eqn:Hc.
    + assert (Forall (fun ln : str => LF ∉ ln) (cur :: splitlines_from [] s)).
      { constructor; [done|].
        eapply IH; [|done|apply not_elem_of_nil]. simpl. lia. }
      destruct s as [|d s]; [done|].
      destruct ((c =? CR)%N && (d =? LF)%N); [|done].
      constructor; [done|].
      eapply IH; [|done|apply not_elem_of_nil]. simpl. lia.
    + eapply IH; [|done|]; [simpl; lia|].
      rewrite elem_of_app, list_elem_of_singleton.
      intros [?|<-]; [done|]. by vm_compute in Hc.
Qed.

Lemma elem_of_lstrip (c : N) (s : str) : c ∈ lstrip s -> c ∈ s.
Proof.
  induction s as [|d s IH]; simpl; [done|].
  destruct (isspace d); [|done]. intros ?%IH. by apply elem_of_cons; right.
Qed.

Lemma elem_of_strip (c : N) (s : str) : c ∈ strip s -> c ∈ s.
Proof.
  unfold strip, rstrip. rewrite elem_of_reverse.
  intros H%elem_of_lstrip. rewrite elem_of_reverse in H.
  by apply elem_of_lstrip.
Qed.

Lemma elem_of_sub_scan (p : Re.pattern) (c : N) (s : str) (k : nat) :
  c ∈ Re.sub_scan p k s -> c ∈ s.
Proof.
  revert k. induction s as [|d s IH]; intros k; simpl; [done|].
  rewrite elem_of_cons. destruct k as [|k]; [|by eauto].
  destruct (Re.match_len p (d :: s)) as [[|m]|]; try by eauto.
  all: rewrite elem_of_cons; intros [?|?]; eauto.
Qed.

Lemma chordpro_to_plain_no_LF (cp : str) :
  Forall (fun ln : str => LF ∉ ln) (chordpro_to_plain cp).
Proof.
  unfold chordpro_to_plain, splitlines.
  pose proof (splitlines_from_no_LF cp [] (not_elem_of_nil _)) as Hlines.
  assert (Forall (fun ln : str => LF ∉ ln) ([] : list str)) as Hout by constructor.
  revert Hout. generalize ([] : list str) as out.
  induction Hlines as [|ln lines Hln _ IH]; intros out Hout; simpl; [done|].
  apply IH. unfold plain_step. destruct (_ && _); [done|].
  apply Forall_app. split; [done|]. constructor; [|constructor].
  intros Hin. apply Hln.
  by apply elem_of_sub_scan, elem_of_sub_scan, elem_of_strip in Hin.
Qed.

Lemma layout_lines (segs : list (list str * nat)) (g : list str) (ln : str) :
  g ∈ map fst segs -> ln ∈ g -> ln ∈ layout segs.
Proof.
  induction segs as [|[run blanks] segs IH]; simpl; [by intros ?%elem_of_nil|].
  rewrite elem_of_cons, !elem_of_app. intros [->|Hg] Hln; auto.
Qed.

Lemma split_groups_lines (lines : list str) (g : list str) (ln : str) :
  g ∈ split_groups lines -> ln ∈ g -> ln ∈ lines.
Proof.
  destruct (layout_exists lines) as (b0 & segs & Hsep & ->).
  rewrite split_groups_layout by done. intros Hg Hln.
  apply elem_of_app. right. by eapply layout_lines.
Qed.

Lemma reshape_chunks {A} (sizes : list nat) (l : list A) :
  Forall (fun sz => (1 <= sz)%nat) sizes ->
  (sum_list sizes <= length l)%nat ->
  Forall (fun ch => ch <> [] /\ forall x, x ∈ ch -> x ∈ l) (reshape sizes l).
Proof.
  intros Hsz. revert l.
  induction Hsz as [|sz sizes Hpos _ IH]; intros l Hsum; simpl in *;
    constructor.
  - split.
    + intros Hnil%(f_equal length). rewrite length_take in Hnil.
      simpl in Hnil. lia.
    + intros x Hx. eapply subseteq_take, Hx.
  - eapply Forall_impl; [apply IH; rewrite length_drop; lia|].
    intros ch [Hne Hin]. split; [done|].
    intros x Hx. eapply subseteq_drop, Hin, Hx.
Qed.

(** The chunks of a non-empty group are not empty and are made of its
    lines, whatever [maxl] is. *)
Lemma chunk_even_chunks {A} (g : list A) (maxl : Z) (out : list (list A)) :
  g <> [] -> chunk_even g maxl = Ok out ->
  Forall (fun ch => ch <> [] /\ forall x, x ∈ ch -> x ∈ g) out.
Proof.
  intros Hg Hout.
  assert (1 <= len g) as Hn by (destruct g; [done | unfold len; simpl; lia]).
  destruct (Z_le_gt_dec (len g) maxl) as [Hle|Hgt].
  { unfold chunk_even in Hout.
    destruct (Z.leb_spec (len g) maxl); [|lia]. injection Hout as <-.
    by repeat constructor. }
  destruct (Z_le_gt_dec maxl 0) as [Hm|Hm].
  - unfold chunk_even, ceil_truediv, floordiv, mod_ in Hout.
    destruct (Z.leb_spec (len g) maxl); [lia|].
    destruct (Z.eqb_spec maxl 0); [done|]. simpl in Hout.
    destruct (Z.eqb_spec (- (- len g / maxl)) 0); [done|]. simpl in Hout.
    pose proof (ceil_truediv_nonpositive (len g) maxl ltac:(lia) ltac:(lia)).
    unfold range in Hout.
    replace (Z.to_nat (- (- len g / maxl))) with 0%nat in Hout by lia.
    injection Hout as <-. constructor.
  - rewrite chunk_even_long in Hout by lia. injection Hout as <-.
    destruct (chunk_arith (len g) maxl ltac:(lia) ltac:(lia))
      as (Hnum & Hbase & Hrem & Hsum & _).
    apply reshape_chunks.
    + apply Forall_app. split; apply Forall_replicate; lia.
    + rewrite sum_list_app, !sum_list_replicate. unfold len in *. nia.
Qed.

(** *** The loops of [generate] and the chunks they assemble *)

Lemma chunk_loop_blocks (cs : list (list str)) (md : list str) :
  fold_left chunk_body cs md = md ++ blocks_of cs.
Proof.
  revert md. induction cs as [|c cs IH]; intros md; simpl.
  - by rewrite app_nil_r.
  - rewrite IH. unfold chunk_body. by rewrite <- !app_assoc.
Qed.

Lemma blocks_of_app (cs1 cs2 : list (list str)) :
  blocks_of (cs1 ++ cs2) = blocks_of cs1 ++ blocks_of cs2.
Proof. apply flat_map_app. Qed.

Lemma lockstep_refl (md : list str) (acc : list (list str)) :
  lockstep (Ok md) (Ok acc) md acc.
Proof. exists []. by rewrite !app_nil_r. Qed.

Lemma lockstep_trans (ra : result (list str)) (rb : result (list (list str)))
    (md : list str) (acc cs : list (list str)) :
  Forall good_chunk cs ->
  lockstep ra rb (md ++ blocks_of cs) (acc ++ cs) ->
  lockstep ra rb md acc.
Proof.
  intros Hcs. destruct ra as [md'|e], rb as [acc'|e']; simpl; try done.
  intros (cs' & -> & -> & Hcs'). exists (cs ++ cs').
  rewrite blocks_of_app, !app_assoc. split; [done|]. split; [done|].
  by apply Forall_app.
Qed.

Lemma clean_group_lines (g : list str) (ln : str) :
  ln ∈ clean_group g -> ln ∈ g.
Proof.
  unfold clean_group. rewrite !list_elem_of_In, filter_In. by intros [? _].
Qed.

Lemma group_lockstep (m : Z) (g : list str) (md : list str)
    (acc : list (list str)) :
  Forall (fun ln : str => LF ∉ ln) g ->
  lockstep (group_body m md g) (group_chunks m acc g) md acc.
Proof.
  intros Hg. unfold group_body, group_chunks.
  destruct (decide (clean_group g = [])) as [|Hne]; [apply lockstep_refl|].
  destruct (chunk_even (clean_group g) m) as [cs|e] eqn:Hcs; simpl; [|done].
  exists cs. split; [apply chunk_loop_blocks|]. split; [done|].
  eapply Forall_impl; [by eapply chunk_even_chunks|].
  intros ch [Hch Hin]. split; [done|].
  apply Forall_forall. intros ln Hln.
  rewrite Forall_forall in Hg. by apply Hg, clean_group_lines, Hin.
Qed.

Lemma groups_lockstep (m : Z) (groups : list (list str)) (md : list str)
    (acc : list (list str)) :
  Forall (Forall (fun ln : str => LF ∉ ln)) groups ->
  lockstep (for_each (group_body m) groups md)
           (for_each (group_chunks m) groups acc) md acc.
Proof.
  intros Hgs. revert md acc.
  induction Hgs as [|g groups Hg _ IH]; intros md acc; simpl.
  - apply lockstep_refl.
  - pose proof (group_lockstep m g md acc Hg) as Hstep.
    destruct (group_body m md g) as [md1|e], (group_chunks m acc g) as [acc1|e'];
      simpl in *; try done.
    destruct Hstep as (cs & -> & -> & Hcs).
    eapply lockstep_trans; [done|]. apply IH.
Qed.

Lemma split_groups_no_LF (cp : str) :
  Forall (Forall (fun ln : str => LF ∉ ln)) (split_groups (chordpro_to_plain cp)).
Proof.
  apply Forall_forall. intros g Hg. apply Forall_forall. intros ln Hln.
  pose proof (chordpro_to_plain_no_LF cp) as Hall.
  rewrite Forall_forall in Hall. eapply Hall, split_groups_lines; eauto.
Qed.

Section GenerateLoops.
Variable world : Type.
Variable fetch_chordpro_url : str -> world -> result str * world.
Variable download_chordpro : str -> world -> result str * world.

Lemma url_body_lockstep (m : Z) (url : str) (md : list str)
    (acc : list (list str)) (w : world) :
  exists (ra : result (list str)) (rb : result (list (list str))) (w' : world),
    url_body world fetch_chordpro_url download_chordpro (group_body m) md url w
      = (ra, w') /\
    url_body world fetch_chordpro_url download_chordpro (group_chunks m) acc url w
      = (rb, w') /\
    lockstep ra rb md acc.
Proof.
  unfold url_body. destruct (decide (strip url = [])).
  { eexists _, _, _. split; [done|]. split; [done|]. apply lockstep_refl. }
  destruct (fetch_chordpro_url (strip url) w) as [[txt_url|e] w1].
  2:{ by eexists _, _, _. }
  destruct (download_chordpro txt_url w1) as [[cp_text|e] w2].
  2:{ by eexists _, _, _. }
  eexists _, _, _. split; [done|]. split; [done|].
  apply groups_lockstep, split_groups_no_LF.
Qed.

Lemma url_loop_lockstep (m : Z) (urls : list str) (md : list str)
    (acc : list (list str)) (w : world) :
  exists (ra : result (list str)) (rb : result (list (list str))) (w' : world),
    url_loop world fetch_chordpro_url download_chordpro (group_body m) urls md w
      = (ra, w') /\
    url_loop world fetch_chordpro_url download_chordpro (group_chunks m) urls acc w
      = (rb, w') /\
    lockstep ra rb md acc.
Proof.
  revert md acc w. induction urls as [|url urls IH]; intros md acc w; simpl.
  { eexists _, _, _. split; [done|]. split; [done|]. apply lockstep_refl. }
  destruct (url_body_lockstep m url md acc w) as (ra & rb & w1 & -> & -> & Hstep).
  destruct ra as [md1|e], rb as [acc1|e']; simpl in Hstep; try done.
  - destruct Hstep as (cs & -> & -> & Hcs).
    destruct (IH (md ++ blocks_of cs) (acc ++ cs) w1)
      as (ra & rb & w2 & -> & -> & Hrest).
    eexists _, _, _. split; [done|]. split; [done|].
    by eapply lockstep_trans.
  - subst e'. by eexists _, _, _.
Qed.

End GenerateLoops.

(** *** The text of the deck *)

Lemma join_cons_cons (sep x y : str) (l : list str) :
  join sep (x :: y :: l) = x ++ sep ++ join sep (y :: l).
Proof. done. Qed.

Lemma join_blocks (cs : list (list str)) (x : str) :
  join [LF] ((x ++ [LF]) :: blocks_of cs) =
  x ++ concat (map block_text cs) ++ [LF].
Proof.
  revert x. induction cs as [|c cs IH]; intros x.
  - done.
  - change (blocks_of (c :: cs))
      with (render_chunk c :: (([LF] ++ lit "---") ++ [LF]) :: blocks_of cs).
    rewrite !join_cons_cons, IH. unfold block_text. simpl.
    rewrite <- !app_assoc. simpl. done.
Qed.

Lemma deck_text_dashes (cs : list (list str)) (x : str) :
  exists s : str, (x ++ lit "---") ++ concat (map block_text cs) = s ++ lit "---".
Proof.
  revert x. induction cs as [|c cs IH]; intros x; simpl.
  - exists x. by rewrite app_nil_r.
  - destruct (IH ((x ++ lit "---") ++ [LF; LF] ++ render_chunk c ++ [LF; LF]))
      as (s & Hs).
    exists s. rewrite <- Hs. unfold block_text. by rewrite <- !app_assoc.
Qed.

Lemma strip_deck (cs : list (list str)) :
  strip (deck_text cs ++ [LF]) = deck_text cs.
Proof.
  symmetry. apply trimmed_strip. exists [], [LF].
  split; [done|]. split; [constructor|]. split; [by repeat constructor|]. split.
  - by intros c s [= <- _].
  - intros c s Hs. destruct (deck_text_dashes cs []) as (s' & Hs').
    unfold deck_text in Hs. simpl in Hs', Hs. rewrite Hs' in Hs.
    change (lit "---") with ([45; 45] ++ [45])%N in Hs.
    rewrite app_assoc in Hs. by apply app_inj_tail in Hs as [_ <-].
Qed.

(** *** The lines of the deck *)

Lemma split_from_app_sep (sep : N) (a b cur : str) :
  sep ∉ a ->
  split_from sep cur (a ++ sep :: b) = (cur ++ a) :: split_from sep [] b.
Proof.
  revert cur. induction a as [|c a IH]; intros cur Ha; simpl.
  - by rewrite N.eqb_refl, app_nil_r.
  - apply not_elem_of_cons in Ha as [Hc Ha].
    destruct (N.eqb_spec c sep); [done|].
    rewrite IH by done. by rewrite <- app_assoc.
Qed.

Lemma split_from_no_sep (sep : N) (a cur : str) :
  sep ∉ a -> split_from sep cur a = [cur ++ a].
Proof.
  revert cur. induction a as [|c a IH]; intros cur Ha; simpl.
  - by rewrite app_nil_r.
  - apply not_elem_of_cons in Ha as [Hc Ha].
    destruct (N.eqb_spec c sep); [done|].
    rewrite IH by done. by rewrite <- app_assoc.
Qed.

Lemma split_join (ls : list str) (rest : str) :
  ls <> [] -> Forall (fun ln : str => LF ∉ ln) ls ->
  split_from LF [] (join [LF] ls ++ LF :: rest) = ls ++ split_from LF [] rest.
Proof.
  intros Hne Hls. induction Hls as [|l1 ls Hl1 Hls IH]; [done|].
  destruct ls as [|l2 ls].
  - simpl. by rewrite split_from_app_sep.
  - rewrite join_cons_cons. rewrite <- !app_assoc. simpl.
    rewrite split_from_app_sep by done. simpl. f_equal. by apply IH.
Qed.

Lemma rendered_no_LF (ch : list str) :
  Forall (fun ln : str => LF ∉ ln) ch ->
  Forall (fun ln : str => LF ∉ ln) (map (fun ln => ln ++ lit "  ") ch).
Proof.
  intros Hch. apply Forall_map. eapply Forall_impl; [exact Hch|].
  intros ln Hln. simpl. rewrite elem_of_app. intros [?|Hin]; [done|].
  change (lit "  ") with [32%N; 32%N] in Hin.
  apply elem_of_cons in Hin as [?|Hin]; [done|].
  apply elem_of_cons in Hin as [?|Hin]; [done|]. by apply elem_of_nil in Hin.
Qed.

Lemma split_deck_text (cs : list (list str)) (x : str) :
  Forall good_chunk cs -> LF ∉ x ->
  split_from LF [] (x ++ concat (map block_text cs)) =
  [x] ++ concat (map block_lines cs).
Proof.
  intros Hcs. revert x. induction Hcs as [|c cs [Hne Hc] _ IH]; intros x Hx.
  - simpl. rewrite app_nil_r. by apply split_from_no_sep.
  - cbn [map concat].
    assert (x ++ block_text c ++ concat (map block_text cs) =
            x ++ LF :: [] ++ LF :: render_chunk c ++
              LF :: [] ++ LF :: lit "---" ++ concat (map block_text cs)) as ->.
    { unfold block_text. by rewrite <- !app_assoc. }
    rewrite split_from_app_sep by done.
    rewrite split_from_app_sep by apply not_elem_of_nil.
    unfold render_chunk.
    rewrite split_join; [|by destruct c|by apply rendered_no_LF].
    rewrite split_from_app_sep by apply not_elem_of_nil.
    rewrite IH.
    + unfold block_lines. by rewrite <- !app_assoc.
    + change (lit "---") with [45%N; 45%N; 45%N].
      rewrite !not_elem_of_cons. repeat split; try done. apply not_elem_of_nil.
Qed.

Lemma rendered_not_separator (ln : str) : ln ++ lit "  " <> lit "---".
Proof.
  intros H%(f_equal last).
  change (lit "  ") with ([32] ++ [32])%N in H. rewrite app_assoc in H.
  by rewrite last_snoc in H.
Qed.

Lemma block_lines_separators (c : list str) :
  filter (fun ln : str => ln = lit "---") (block_lines c) = [lit "---"].
Proof.
  unfold block_lines. rewrite !filter_app.
  assert (filter (fun ln : str => ln = lit "---")
            (map (fun ln => ln ++ lit "  ") c) = []) as ->.
  { induction c as [|ln c IH]; [done|]. simpl.
    rewrite filter_cons_False; [done|]. apply rendered_not_separator. }
  done.
Qed.

Lemma count_separators (cs : list (list str)) :
  length (filter (fun ln : str => ln = lit "---")
            ([lit "---"] ++ concat (map block_lines cs))) = S (length cs).
Proof.
  rewrite filter_app, length_app.
  assert (length (filter (fun ln : str => ln = lit "---")
                    (concat (map block_lines cs))) = length cs) as ->.
  { induction cs as [|c cs IH]; [done|]. cbn [map concat].
    by rewrite filter_app, length_app, block_lines_separators, IH. }
  done.
Qed.

(** C7. Deck structure: when [generate] returns a deck, the deck is the
    text [deck_text chunks] of the chunks of the run; it starts with the
    separator [---]; its lines are the separator followed, for each chunk
    in order, by an empty line, the lines of the chunk each with two
    spaces appended, an empty line and a separator; so exactly
    [1 + number of chunks] of its lines are separators (a separator
    marker being a line of the deck equal to [---]). *)
Theorem generate_deck_structure (world : Type)
    (fetch_chordpro_url download_chordpro : str -> world -> result str * world)
    (urls : str) (max_lines : Z) (w w' : world) (deck : str) :
  generate world fetch_chordpro_url download_chordpro urls max_lines w
    = (Ok deck, w') ->
  exists chunks : list (list str),
    generate_chunks world fetch_chordpro_url download_chordpro urls max_lines w
      = (Ok chunks, w') /\
    deck = deck_text chunks /\
    startswith deck (lit "---") = true /\
    split LF deck = [lit "---"] ++ concat (map block_lines chunks) /\
    length (filter (fun ln : str => ln = lit "---") (split LF deck))
      = S (length chunks).
Proof.
  unfold generate, generate_chunks. intros Hgen.
  destruct (url_loop_lockstep world fetch_chordpro_url download_chordpro
              max_lines (splitlines urls) [lit "---" ++ [LF]] [] w)
    as (ra & rb & w1 & Ha & Hb & Hstep).
  rewrite Ha in Hgen. rewrite Hb.
  destruct ra as [md|e]; [|done]. injection Hgen as <- <-.
  destruct rb as [chunks|e']; [|done]. destruct Hstep as (cs & -> & -> & Hcs).
  exists cs. split; [done|].
  assert (strip (join [LF] ([lit "---" ++ [LF]] ++ blocks_of cs)) = deck_text cs)
    as ->.
  { change ([lit "---" ++ [LF]] ++ blocks_of cs)
      with ((lit "---" ++ [LF]) :: blocks_of cs).
    rewrite join_blocks, app_assoc. apply strip_deck. }
  split; [done|]. split; [done|].
  assert (split LF (deck_text cs) = [lit "---"] ++ concat (map block_lines cs))
    as ->.
  { apply split_deck_text; [done|].
    change (lit "---") with [45%N; 45%N; 45%N].
    rewrite !not_elem_of_cons. repeat split; try done. apply not_elem_of_nil. }
  split; [done|]. apply count_separators.
Qed.

Lemma generate_deck_structure_witness :
  let fetch := fun (u : str) (w : unit) => (Ok u, w) in
  let download := fun (_ : str) (w : unit) =>
    (Ok (lit "[C]a" ++ [LF] ++ lit "b" ++ [LF] ++ lit "c"), w) in
  let deck := lit "---" ++ [LF; LF] ++ lit "a  " ++ [LF] ++ lit "b  " ++
    [LF; LF] ++ lit "---" ++ [LF; LF] ++ lit "c  " ++ [LF; LF] ++ lit "---" in
  generate unit fetch download (lit "u") 2 tt = (Ok deck, tt) /\
  exists chunks : list (list str),
    generate_chunks unit fetch download (lit "u") 2 tt = (Ok chunks, tt) /\
    deck = deck_text chunks /\
    startswith deck (lit "---") = true /\
    split LF deck = [lit "---"] ++ concat (map block_lines chunks) /\
    length (filter (fun ln : str => ln = lit "---") (split LF deck))
      = S (length chunks).
Proof.
  intros fetch download deck.
  assert (generate unit fetch download (lit "u") 2 tt = (Ok deck, tt)) as Hrun
    by (vm_compute; reflexivity).
  split; [exact Hrun|].
  exact (generate_deck_structure unit fetch download (lit "u") 2 tt tt deck Hrun).
Defined.

(** ** The build route *)

Lemma rmtree_below (deletable : str -> bool) (root path : str)
    (m : gmap str node) :
  below root path -> deletable path = true ->
  rmtree deletable root m !! path = None.
Proof.
  intros Hb Hd. unfold rmtree. apply map_lookup_filter_None. right.
  intros x _ Hn. by apply Hn.
Qed.

Lemma rmtree_kept (deletable : str -> bool) (root path : str)
    (m : gmap str node) :
  ~ below root path \/ deletable path = false ->
  rmtree deletable root m !! path = m !! path.
Proof.
  intros Hk. unfold rmtree. destruct (m !! path) as [x|] eqn:Hx.
  - apply map_lookup_filter_Some. split; [done|]. simpl.
    intros [Hb Hd]. destruct Hk as [Hk|Hk]; [done|]. by rewrite Hk in Hd.
  - apply map_lookup_filter_None. by left.
Qed.





(** ** Fetching the song text *)

(** *** What [song_re] matches *)

Lemma literal_match_Some (l : str) (p : Re.pattern) (s : str) (n : nat) :
  Re.match_len (literal l ++ p) s = Some n ->
  exists (s' : str) (m : nat),
    s = l ++ s' /\ Re.match_len p s' = Some m /\ n = (length l + m)%nat.
Proof.
  revert s n. induction l as [|c l IH]; intros s n; simpl.
  - intros Hm. by exists s, n.
  - destruct s as [|d s]; simpl; [done|].
    destruct (N.eqb_spec d c) as [->|_]; [|done].
    destruct (Re.match_len (literal l ++ p) s) as [k|] eqn:Hk; simpl; [|done].
    intros [= <-]. destruct (IH s k Hk) as (s' & m & -> & Hm & ->).
    by exists s', m.
Qed.

Lemma literal_match_app (l : str) (p : Re.pattern) (s' : str) :
  Re.match_len (literal l ++ p) (l ++ s') =
  Nat.add (length l) <$> Re.match_len p s'.
Proof.
  induction l as [|c l IH]; simpl.
  - by destruct (Re.match_len p s').
  - rewrite N.eqb_refl, IH. by destruct (Re.match_len p s').
Qed.

Lemma plus_len_Some (q : N) (k : str -> option nat) (s : str) (n : nat) :
  Re.plus_len (Re.NotChr q) k s = Some n ->
  exists (stem r : str) (m : nat),
    stem <> [] /\ (q ∉ stem) /\ s = stem ++ r /\ k r = Some m /\
    n = (length stem + m)%nat.
Proof.
  revert n. induction s as [|c s IH]; intros n; simpl; [done|].
  destruct (N.eqb_spec c q) as [->|Hc]; simpl; [done|].
  destruct (Re.plus_len _ k s) as [j|] eqn:Hplus.
  - intros [= <-].
    destruct (IH j eq_refl) as (stem & r & m & Hne & Hnin & -> & Hk & ->).
    exists (c :: stem), r, m. repeat split; try done.
    rewrite elem_of_cons. intros [?|?]; congruence.
  - destruct (k s) as [m|] eqn:Hk; simpl; [|done]. intros [= <-].
    exists [c], s, m. repeat split; try done.
    rewrite list_elem_of_singleton. congruence.
Qed.

Lemma plus_len_is_Some (q : N) (k : str -> option nat) (stem r : str) :
  stem <> [] -> q ∉ stem -> is_Some (k r) ->
  is_Some (Re.plus_len (Re.NotChr q) k (stem ++ r)).
Proof.
  intros Hne Hnin [m Hk]. induction stem as [|c stem IH]; [done|].
  apply not_elem_of_cons in Hnin as [Hc Hnin]. simpl.
  destruct (N.eqb_spec c q); [congruence|]. simpl.
  destruct stem as [|c' stem].
  - simpl. destruct (Re.plus_len _ k r); [done|]. rewrite Hk. by eexists.
  - destruct (IH ltac:(done) Hnin) as [j ->]. by eexists.
Qed.

Lemma txt_no_quote : 34%N ∉ lit ".txt".
Proof.
  change (lit ".txt") with [46%N; 116%N; 120%N; 116%N].
  rewrite !not_elem_of_cons. repeat split; try done. apply not_elem_of_nil.
Qed.

(** A match of [song_re] is an embedded reference, and its group is the
    reference. *)
Lemma song_re_Some (s : str) (n : nat) :
  Re.match_len song_re s = Some n ->
  exists u post : str,
    song_url u /\ s = song_open ++ u ++ song_close ++ post /\
    n = (length u + 22)%nat.
Proof.
  unfold song_re. intros Hm.
  apply literal_match_Some in Hm as (s1 & m1 & -> & Hm & ->).
  cbn [app Re.match_len] in Hm.
  apply plus_len_Some in Hm as (stem & r & m2 & Hne & Hnin & -> & Hm & ->).
  apply literal_match_Some in Hm as (s2 & m3 & -> & Hm & ->).
  rewrite <- (app_nil_r (literal song_close)) in Hm.
  apply literal_match_Some in Hm as (post & m4 & -> & Hm & ->).
  simpl in Hm. injection Hm as <-.
  exists (stem ++ lit ".txt"), post. split; [|split].
  - exists stem. split; [done|]. split; [done|].
    rewrite not_elem_of_app. split; [done|apply txt_no_quote].
  - by rewrite <- !app_assoc.
  - rewrite length_app. simpl. lia.
Qed.

(** Where a reference is embedded, [song_re] matches. *)
Lemma song_re_is_Some (u post : str) :
  song_url u ->
  is_Some (Re.match_len song_re (song_open ++ u ++ song_close ++ post)).
Proof.
  intros (stem & Hne & -> & Hnin). unfold song_re.
  rewrite literal_match_app. apply fmap_is_Some. cbn [app Re.match_len].
  rewrite <- app_assoc. apply plus_len_is_Some; [done| |].
  - intros Hin. apply Hnin, elem_of_app. by left.
  - rewrite literal_match_app. apply fmap_is_Some.
    rewrite <- (app_nil_r (literal song_close)).
    rewrite literal_match_app. by eexists.
Qed.

(** *** [re.search] finds the leftmost match *)

Lemma search_from_Some (p : Re.pattern) (s : str) (pos start n : nat) :
  search_from p pos s = Some (start, n) ->
  exists pre rest : str,
    s = pre ++ rest /\ start = (pos + length pre)%nat /\
    Re.match_len p rest = Some n /\
    (forall pre1 pre2 : str,
       pre = pre1 ++ pre2 -> pre2 <> [] ->
       Re.match_len p (pre2 ++ rest) = None).
Proof.
  revert pos. induction s as [|c s IH]; intros pos; simpl.
  - destruct (Re.match_len p []) as [k|] eqn:Hk; [|done].
    intros [= <- <-]. exists [], []. repeat split; [simpl; lia|done|].
    intros pre1 pre2 Heq Hne. symmetry in Heq.
    by apply app_eq_nil in Heq as [_ ->].
  - destruct (Re.match_len p (c :: s)) as [k|] eqn:Hk.
    + intros [= <- <-]. exists [], (c :: s). repeat split; [simpl; lia|done|].
      intros pre1 pre2 Heq Hne. symmetry in Heq.
      by apply app_eq_nil in Heq as [_ ->].
    + intros (pre & rest & -> & -> & Hm & Hleft)%IH.
      exists (c :: pre), rest. repeat split; [simpl; lia|done|].
      intros pre1 pre2 Heq Hne. destruct pre1 as [|c' pre1]; simpl in Heq.
      * by subst pre2.
      * injection Heq as <- ->. by eapply Hleft.
Qed.

Lemma search_from_None (p : Re.pattern) (s : str) (pos : nat) :
  search_from p pos s = None ->
  forall pre rest : str, s = pre ++ rest -> Re.match_len p rest = None.
Proof.
  revert pos. induction s as [|c s IH]; intros pos; simpl.
  - destruct (Re.match_len p []) eqn:Hk; [done|]. intros _ pre rest Heq.
    symmetry in Heq. by apply app_eq_nil in Heq as [_ ->].
  - destruct (Re.match_len p (c :: s)) eqn:Hk; [done|].
    intros Hs pre rest Heq. destruct pre as [|c' pre]; simpl in Heq.
    + by subst rest.
    + injection Heq as <- ->. by eapply IH.
Qed.

(** What [re.search] and [m.group(1)] give on a page: the leftmost
    embedded reference, or nothing when the page embeds none. *)
Lemma song_search_Some (page : str) (start n : nat) :
  re_search song_re page = Some (start, n) ->
  exists pre : str,
    song_url (song_group page start n) /\
    embeds_at page pre (song_group page start n) /\
    (forall pre' u', song_url u' -> embeds_at page pre' u' ->
       (length pre <= length pre')%nat).
Proof.
  unfold re_search.
  intros (pre & rest & -> & -> & Hm & Hleft)%search_from_Some.
  apply song_re_Some in Hm as (u & post & Hu & -> & ->).
  assert (song_group (pre ++ song_open ++ u ++ song_close ++ post)
            (0 + length pre) (length u + 22) = u) as ->.
  { unfold song_group.
    replace (0 + length pre + 20)%nat with (length pre + length song_open)%nat
      by (change (length song_open) with 20%nat; lia).
    rewrite drop_app_add, drop_app_length.
    replace (length u + 22 - 22)%nat with (length u) by lia.
    apply take_app_length. }
  exists pre. split; [done|]. split; [by exists post|].
  intros pre' u' Hu' [post' Heq].
  destruct (decide (length pre <= length pre')%nat) as [|Hlt]; [done|].
  exfalso. apply app_eq_inv in Heq as [(k & -> & Hk)|(k & -> & Hk)].
  - destruct k as [|c k]; [rewrite length_app in Hlt; simpl in Hlt; lia|].
    specialize (Hleft pre' (c :: k) eq_refl ltac:(done)).
    rewrite <- Hk in Hleft.
    destruct (song_re_is_Some u' post' Hu') as [m Hm']. congruence.
  - rewrite length_app in Hlt. lia.
Qed.

Lemma song_search_None (page : str) :
  re_search song_re page = None ->
  forall pre u, song_url u -> ~ embeds_at page pre u.
Proof.
  unfold re_search. intros Hs pre u Hu [post ->].
  pose proof (search_from_None _ _ _ Hs pre _ eq_refl) as Hm.
  destruct (song_re_is_Some u post Hu) as [m Hm']. congruence.
Qed.

(** X1. [fetch_chordpro_url] returns the first reference of the page: when
    the request succeeds and the function returns [u], [u] is a non-empty
    stem followed by [.txt] with no double quote, the page text has
    [initializeSongPage("u")] at some place, no such reference stands
    earlier in the page, and one request was made. *)
Theorem fetch_returns_first_reference (world : Type)
    (requests_get : str -> world -> result http_response * world)
    (page_url : str) (w w1 w' : world) (r : http_response) (u : str) :
  requests_get page_url w = (Ok r, w1) ->
  fetch_chordpro_url world requests_get page_url w = (Ok u, w') ->
  w' = w1 /\ song_url u /\
  exists pre : str,
    embeds_at (text r) pre u /\
    (forall pre' u', song_url u' -> embeds_at (text r) pre' u' ->
       (length pre <= length pre')%nat).
Proof.
  intros Hget. unfold fetch_chordpro_url. rewrite Hget.
  destruct (raise_for_status r); [|done].
  destruct (re_search song_re (text r)) as [[start n]|] eqn:Hs; [|done].
  intros [= <- <-]. split; [done|].
  destruct (song_search_Some _ _ _ Hs) as (pre & Hu & Hemb & Hleft).
  split; [done|]. by exists pre.
Qed.

Lemma fetch_returns_first_reference_witness :
  let page := lit "<script>initializeSongPage(" ++ [34%N] ++ lit "a.txt" ++
              [34%N] ++ lit ")</script>" in
  let get := fun (_ : str) (w : unit) => (Ok (HttpResponse 200 page []), w) in
  get (lit "p") tt = (Ok (HttpResponse 200 page []), tt) /\
  fetch_chordpro_url unit get (lit "p") tt = (Ok (lit "a.txt"), tt) /\
  tt = tt /\ song_url (lit "a.txt") /\
  exists pre : str,
    embeds_at page pre (lit "a.txt") /\
    (forall pre' u', song_url u' -> embeds_at page pre' u' ->
       (length pre <= length pre')%nat).
Proof.
  intros page get.
  assert (fetch_chordpro_url unit get (lit "p") tt = (Ok (lit "a.txt"), tt))
    as Hf by (vm_compute; reflexivity).
  split; [reflexivity|]. split; [exact Hf|].
  exact (fetch_returns_first_reference unit get (lit "p") tt tt tt
           (HttpResponse 200 page []) (lit "a.txt") eq_refl Hf).
Defined.

(** X2. When the request succeeds with a status outside 400..599,
    [fetch_chordpro_url] aborts with 400 exactly when the page text embeds
    no reference [initializeSongPage("u")] with [u] a non-empty stem
    followed by [.txt] and free of double quotes. *)
Theorem fetch_aborts_iff_no_reference (world : Type)
    (requests_get : str -> world -> result http_response * world)
    (page_url : str) (w w1 : world) (r : http_response) :
  requests_get page_url w = (Ok r, w1) ->
  status_code r < 400 \/ 600 <= status_code r ->
  fetch_chordpro_url world requests_get page_url w = (Raise (Abort 400), w1)
  <-> (forall pre u, song_url u -> ~ embeds_at (text r) pre u).
Proof.
  intros Hget Hst. unfold fetch_chordpro_url, raise_for_status. rewrite Hget.
  assert ((400 <=? status_code r) && (status_code r <? 600) = false) as ->.
  { apply andb_false_iff. destruct Hst; [left|right]; lia. }
  destruct (re_search song_re (text r)) as [[start n]|] eqn:Hs.
  - split; [done|]. intros Hno.
    destruct (song_search_Some _ _ _ Hs) as (pre & Hu & Hemb & _).
    by destruct (Hno pre _ Hu).
  - split; [|done]. intros _. by apply song_search_None.
Qed.

Lemma fetch_aborts_iff_no_reference_witness :
  let get := fun (_ : str) (w : unit) =>
    (Ok (HttpResponse 200 (lit "no song here") []), w) in
  get (lit "p") tt = (Ok (HttpResponse 200 (lit "no song here") []), tt) /\
  (200 < 400 \/ 600 <= 200) /\
  (fetch_chordpro_url unit get (lit "p") tt = (Raise (Abort 400), tt)
   <-> (forall pre u, song_url u -> ~ embeds_at (lit "no song here") pre u)).
Proof.
  intros get.
  assert (200 < 400 \/ 600 <= 200) as Hst by (left; lia).
  split; [reflexivity|]. split; [exact Hst|].
  exact (fetch_aborts_iff_no_reference unit get (lit "p") tt tt
           (HttpResponse 200 (lit "no song here") []) eq_refl Hst).
Defined.

(** ** More on the even chunker *)

Lemma chunk_even_le_max {A} (g : list A) (maxl : Z) (out : list (list A)) :
  1 <= maxl -> chunk_even g maxl = Ok out ->
  Forall (fun c => len c <= maxl) out.
Proof.
  intros Hm Hout. destruct (Z_le_gt_dec (len g) maxl) as [Hle|Hgt].
  - unfold chunk_even in Hout.
    destruct (Z.leb_spec (len g) maxl); [|lia]. injection Hout as <-.
    by repeat constructor.
  - destruct (chunk_arith (len g) maxl Hm ltac:(lia))
      as (Hnum & Hbase & Hrem & Hsum & Hb1).
    destruct (chunk_even_long_sizes g maxl Hm ltac:(lia)) as (out' & Hout' & Hsz).
    rewrite Hout in Hout'. injection Hout' as <-.
    apply Forall_forall. intros c Hc.
    apply (list_elem_of_fmap_2 len) in Hc.
    change (len <$> out) with (map len out) in Hc. rewrite Hsz in Hc.
    apply elem_of_app in Hc as [Hc|Hc];
      apply elem_of_replicate in Hc as [-> Hpos]; lia.
Qed.

Lemma chunk_even_concat {A} (g : list A) (maxl : Z) (out : list (list A)) :
  1 <= maxl -> chunk_even g maxl = Ok out -> concat out = g.
Proof.
  intros Hm Hout. destruct (Z_le_gt_dec (len g) maxl) as [Hle|Hgt].
  - unfold chunk_even in Hout.
    destruct (Z.leb_spec (len g) maxl); [|lia]. injection Hout as <-.
    simpl. apply app_nil_r.
  - rewrite chunk_even_long in Hout by lia. injection Hout as <-.
    destruct (chunk_arith (len g) maxl Hm ltac:(lia))
      as (Hnum & Hbase & Hrem & Hsum & _).
    rewrite concat_reshape. apply take_ge.
    rewrite sum_list_app, !sum_list_replicate. unfold len in *. nia.
Qed.

Lemma chunk_even_nonpositive_nil {A} (g : list A) (maxl : Z)
    (out : list (list A)) :
  g <> [] -> maxl <= 0 -> chunk_even g maxl = Ok out -> out = [].
Proof.
  intros Hg Hm Hout.
  assert (1 <= len g) as Hn by (destruct g; [done | unfold len; simpl; lia]).
  unfold chunk_even, ceil_truediv, floordiv, mod_ in Hout.
  destruct (Z.leb_spec (len g) maxl); [lia|].
  destruct (Z.eqb_spec maxl 0); [done|]. simpl in Hout.
  destruct (Z.eqb_spec (- (- len g / maxl)) 0); [done|]. simpl in Hout.
  pose proof (ceil_truediv_nonpositive (len g) maxl ltac:(lia) ltac:(lia)).
  unfold range in Hout.
  replace (Z.to_nat (- (- len g / maxl))) with 0%nat in Hout by lia.
  by injection Hout as <-.
Qed.

Lemma length_concat_ge {A} (cs : list (list A)) :
  Forall (fun c => c <> []) cs -> (length cs <= length (concat cs))%nat.
Proof.
  induction 1 as [|c cs Hc _ IH]; simpl; [done|].
  rewrite length_app. destruct c; [done|]. simpl. lia.
Qed.

Lemma reshape_ones {A} (g : list A) :
  reshape (replicate (length g) 1%nat) g = map (fun x => [x]) g.
Proof.
  induction g as [|x g IH]; [done|].
  cbn [length replicate reshape map]. rewrite <- IH.
  by rewrite (skipn_cons 0), drop_0.
Qed.

(** X3. The empty group: [chunk_even([], maxl)] is the single empty chunk
    for [maxl >= 0] and raises [ZeroDivisionError] for a negative [maxl]
    (the number of chunks is then [math.ceil(0 / maxl) = 0]). *)
Theorem chunk_even_empty_group {A} (maxl : Z) :
  chunk_even ([] : list A) maxl =
  if 0 <=? maxl then Ok [[]] else Raise ZeroDivisionError.
Proof.
  unfold chunk_even. change (len ([] : list A)) with 0.
  destruct (Z.leb_spec 0 maxl); [done|].
  unfold ceil_truediv. destruct (Z.eqb_spec maxl 0); [lia|].
  change (- 0) with 0. rewrite Z.div_0_l by done. reflexivity.
Qed.

(** X4. Chunking is stable: with [maxl >= 1], chunking again a chunk that
    [chunk_even] returned leaves it whole. *)
Theorem chunk_even_rechunk {A} (g : list A) (maxl : Z) (out : list (list A)) :
  1 <= maxl -> chunk_even g maxl = Ok out ->
  Forall (fun c => chunk_even c maxl = Ok [c]) out.
Proof.
  intros Hm Hout. eapply Forall_impl; [by eapply chunk_even_le_max|].
  intros c Hc. simpl in Hc. unfold chunk_even.
  by destruct (Z.leb_spec (len c) maxl); [|lia].
Qed.

Lemma chunk_even_rechunk_witness :
  1 <= 3 /\
  chunk_even [1; 2; 3; 4; 5; 6; 7] 3 = Ok [[1; 2; 3]; [4; 5]; [6; 7]] /\
  Forall (fun c => chunk_even c 3 = Ok [c]) [[1; 2; 3]; [4; 5]; [6; 7]].
Proof.
  assert (1 <= 3) as Hm by lia.
  split; [exact Hm|]. split; [reflexivity|].
  exact (chunk_even_rechunk [1; 2; 3; 4; 5; 6; 7] 3 _ Hm eq_refl).
Defined.

(** X5. One line per slide: with [maxl = 1] every line of a group of at
    least one line becomes a chunk of its own. *)
Theorem chunk_even_singletons {A} (g : list A) :
  g <> [] -> chunk_even g 1 = Ok (map (fun x => [x]) g).
Proof.
  intros Hg. destruct (Z_le_gt_dec (len g) 1) as [Hle|Hgt].
  - destruct g as [|x [|y g]]; [done|done|].
    unfold len in Hle. simpl in Hle. lia.
  - rewrite chunk_even_long by lia.
    assert (- (- len g / 1) = len g) as -> by (rewrite Z.div_1_r; lia).
    rewrite Z.div_same, Z.mod_same by lia. simpl.
    replace (Z.to_nat (len g - 0)) with (length g) by (unfold len; lia).
    by rewrite reshape_ones.
Qed.

Lemma chunk_even_singletons_witness :
  [5; 6; 7] <> [] /\ chunk_even [5; 6; 7] 1 = Ok [[5]; [6]; [7]].
Proof.
  split; [discriminate|].
  apply (chunk_even_singletons [5; 6; 7]); discriminate.
Defined.

(** X6. Whatever [maxl] is, when [chunk_even] returns on a group of at
    least one line, no chunk is empty, every chunk is made of lines of the
    group, and there are at most as many chunks as lines. *)
Theorem chunk_even_no_empty_chunk {A} (g : list A) (maxl : Z)
    (out : list (list A)) :
  g <> [] -> chunk_even g maxl = Ok out ->
  Forall (fun ch => ch <> [] /\ forall x, x ∈ ch -> x ∈ g) out /\
  (length out <= length g)%nat.
Proof.
  intros Hg Hout.
  pose proof (chunk_even_chunks g maxl out Hg Hout) as Hall.
  split; [done|]. destruct (Z_le_gt_dec maxl 0) as [Hm|Hm].
  - rewrite (chunk_even_nonpositive_nil g maxl out Hg Hm Hout). simpl. lia.
  - rewrite <- (chunk_even_concat g maxl out ltac:(lia) Hout).
    apply length_concat_ge. eapply Forall_impl; [exact Hall|].
    by intros ch [? _].
Qed.

Lemma chunk_even_no_empty_chunk_witness :
  [1; 2; 3; 4; 5] <> [] /\
  chunk_even [1; 2; 3; 4; 5] 2 = Ok [[1; 2]; [3; 4]; [5]] /\
  Forall (fun ch => ch <> [] /\ forall x, x ∈ ch -> x ∈ [1; 2; 3; 4; 5])
    [[1; 2]; [3; 4]; [5]] /\
  (length [[1; 2]; [3; 4]; [5]] <= length [1; 2; 3; 4; 5])%nat.
Proof.
  assert ([1; 2; 3; 4; 5] <> []) as Hg by discriminate.
  split; [exact Hg|]. split; [reflexivity|].
  exact (chunk_even_no_empty_chunk [1; 2; 3; 4; 5] 2 _ Hg eq_refl).
Defined.

(** ** More on the grouper *)

(** Groups already closed stay in front of what the loop adds. *)
Lemma group_loop_prefix (lines : list str) (front groups : list (list str))
    (buf : list str) :
  fold_left group_step lines (front ++ groups, buf) =
  (front ++ (fold_left group_step lines (groups, buf)).1,
   (fold_left group_step lines (groups, buf)).2).
Proof.
  revert groups buf. induction lines as [|ln lines IH]; intros groups buf;
    simpl; [done|].
  destruct (decide (ln = [])); [|by rewrite IH].
  destruct (decide (buf = [])); [by rewrite IH|].
  by rewrite <- app_assoc, IH.
Qed.

(** X7. An empty line cuts the input of the grouper in two: the groups of
    [l1], an empty line and [l2] are the groups of [l1] followed by the
    groups of [l2]. *)
Theorem split_groups_blank_line (l1 l2 : list str) :
  split_groups (l1 ++ [] :: l2) = split_groups l1 ++ split_groups l2.
Proof.
  unfold split_groups. rewrite fold_left_app. simpl.
  destruct (fold_left group_step l1 ([], [])) as [g1 b1]. simpl.
  assert (forall front : list (list str),
            close_buf (fold_left group_step l2 (front, [])) =
            front ++ close_buf (fold_left group_step l2 ([], []))) as Hfront.
  { intros front. rewrite <- (app_nil_r front) at 1.
    rewrite group_loop_prefix.
    destruct (fold_left group_step l2 ([], [])) as [g2 b2]. simpl.
    destruct (decide (b2 = [])); [done|]. by rewrite app_assoc. }
  destruct (decide (b1 = [])) as [->|Hb]; apply Hfront.
Qed.

(** ** More on the stripper *)

(** The characters of the lines of [splitlines] are characters of the
    text that are not line boundaries. *)
Lemma splitlines_from_chars (P : N -> Prop) (s cur : str) :
  Forall P cur ->
  (forall c, c ∈ s -> is_linebreak c = false -> P c) ->
  Forall (Forall P) (splitlines_from cur s).
Proof.
  remember (length s) as n eqn:Hn. revert s cur Hn.
  induction n as [n IH] using lt_wf_ind. intros s cur -> Hcur Hs.
  destruct s as [|c s]; simpl.
  - destruct cur; [apply Forall_nil_2|].
    by apply Forall_cons_2; [|apply Forall_nil_2].
  - assert (forall c', c' ∈ s -> is_linebreak c' = false -> P c') as Hs'.
    { intros c' Hc'. apply Hs. by right. }
    destruct (is_linebreak c) eqn:Hc.
    + assert (Forall (Forall P) (cur :: splitlines_from [] s)).
      { constructor; [done|]. eapply IH; [|done|constructor|done].
        simpl. lia. }
      destruct s as [|d s]; [done|].
      destruct ((c =? CR)%N && (d =? LF)%N); [|done].
      constructor; [done|]. eapply IH; [|done|constructor|].
      * simpl. lia.
      * intros c' Hc'. apply Hs'. by right.
    + eapply IH; [|done| |done]; [simpl; lia|].
      apply Forall_app. split; [done|]. constructor; [|constructor].
      apply Hs; [by left|done].
Qed.

Lemma strip_sublist (s : str) : strip s `sublist_of` s.
Proof.
  destruct (strip_trimmed s) as (ws1 & ws2 & Heq & _).
  rewrite Heq at 2. apply sublist_inserts_l, sublist_inserts_r. done.
Qed.

(** What the loop body appends is a sub-sequence of the trimmed line. *)
Lemma plain_step_sublist (out : list str) (ln : str) :
  exists o : list str,
    plain_step out ln = out ++ o /\
    Forall (fun r : str => r `sublist_of` strip ln) o.
Proof.
  unfold plain_step. destruct (_ && _).
  - exists []. by rewrite app_nil_r.
  - eexists. split; [done|]. constructor; [|constructor].
    transitivity (Re.sub_empty chord_re (strip ln)).
    + eapply removed_sublist, sub_empty_removed;
        [apply tag_re_Some | apply tag_re_None | apply tag_token_nonempty].
    + eapply removed_sublist, sub_empty_removed;
        [apply chord_re_Some | apply chord_re_None | apply chord_token_nonempty].
Qed.

Lemma plain_loop_sublist (all lines : list str) (out : list str) :
  (forall ln, ln ∈ lines -> ln ∈ all) ->
  Forall (fun r : str => exists ln, ln ∈ all /\ r `sublist_of` strip ln) out ->
  Forall (fun r : str => exists ln, ln ∈ all /\ r `sublist_of` strip ln)
    (fold_left plain_step lines out).
Proof.
  revert out. induction lines as [|ln lines IH]; intros out Hsub Hout;
    simpl; [done|].
  apply IH; [intros x Hx; apply Hsub; by right|].
  destruct (plain_step_sublist out ln) as (o & -> & Ho).
  apply Forall_app. split; [done|].
  eapply Forall_impl; [exact Ho|]. intros r Hr.
  exists ln. split; [apply Hsub; by left|done].
Qed.

(** X8. The stripper adds and reorders nothing: every line of its output
    is a sub-sequence of the trimmed form of a line of [cp.splitlines()],
    and has no line-boundary character. *)
Theorem chordpro_to_plain_subsequence (cp : str) :
  Forall (fun r : str =>
            (exists ln : str, ln ∈ splitlines cp /\ r `sublist_of` strip ln) /\
            Forall (fun c => is_linebreak c = false) r)
    (chordpro_to_plain cp).
Proof.
  assert (Forall (Forall (fun c => is_linebreak c = false)) (splitlines cp))
    as Hbreak.
  { apply splitlines_from_chars; [constructor|done]. }
  eapply Forall_impl.
  { apply (plain_loop_sublist (splitlines cp) (splitlines cp) []);
      [done|constructor]. }
  intros r (ln & Hln & Hsub). split; [by exists ln|].
  rewrite Forall_forall in Hbreak. specialize (Hbreak ln Hln).
  apply Forall_forall. intros c Hc. rewrite Forall_forall in Hbreak.
  apply Hbreak. eapply elem_of_sublist; [|apply strip_sublist].
  by eapply elem_of_sublist.
Qed.

(** Where the pattern matches nowhere, [re.sub] changes nothing. *)
Lemma sub_empty_no_match (p : Re.pattern) (s : str) :
  (forall pre rest : str, s = pre ++ rest -> Re.match_len p rest = None) ->
  Re.sub_empty p s = s.
Proof.
  unfold Re.sub_empty. induction s as [|c s IH]; intros Hno; simpl; [done|].
  rewrite (Hno [] (c :: s) eq_refl). f_equal. apply IH.
  intros pre rest ->. by apply (Hno (c :: pre) rest).
Qed.

Lemma chord_re_needs_bracket (s : str) :
  91%N ∉ s -> Re.sub_empty chord_re s = s.
Proof.
  intros Hno. apply sub_empty_no_match. intros pre rest ->.
  destruct (Re.match_len chord_re rest) as [n|] eqn:Hm; [|done].
  apply chord_re_Some in Hm as (t & rest' & Ht & -> & _).
  exfalso. apply Hno. apply elem_of_app. right. apply elem_of_app. left.
  destruct Ht as (content & _ & _ & [->| ->]); by left.
Qed.

Lemma tag_re_needs_angle (s : str) :
  60%N ∉ s -> Re.sub_empty tag_re s = s.
Proof.
  intros Hno. apply sub_empty_no_match. intros pre rest ->.
  destruct (Re.match_len tag_re rest) as [n|] eqn:Hm; [|done].
  apply tag_re_Some in Hm as (t & rest' & Ht & -> & _).
  exfalso. apply Hno. apply elem_of_app. right. apply elem_of_app. left.
  destruct Ht as (content & _ & _ & ->). by left.
Qed.

(** X9. Plain text passes through: a text without [[], [<] and [{] comes
    out as its lines, each trimmed, none dropped. *)
Theorem chordpro_to_plain_plain_text (cp : str) :
  91%N ∉ cp -> 60%N ∉ cp -> 123%N ∉ cp ->
  chordpro_to_plain cp = map strip (splitlines cp).
Proof.
  intros H91 H60 H123.
  assert (Forall (Forall (fun c => c <> 91 /\ c <> 60 /\ c <> 123)%N)
            (splitlines cp)) as Hlines.
  { apply splitlines_from_chars; [constructor|].
    intros c Hc _. repeat split; intros ->; done. }
  unfold chordpro_to_plain.
  assert (forall out, fold_left plain_step (splitlines cp) out =
                      out ++ map strip (splitlines cp)) as Hloop.
  { induction Hlines as [|ln lines Hln _ IH]; intros out; simpl.
    - by rewrite app_nil_r.
    - assert (forall c, c ∈ strip ln -> c <> 91 /\ c <> 60 /\ c <> 123)%N
        as Hstrip.
      { intros c Hc%elem_of_strip. rewrite Forall_forall in Hln. by apply Hln. }
      assert (plain_step out ln = out ++ [strip ln]) as ->.
      { unfold plain_step.
        destruct (startswith (strip ln) (lit "{")) eqn:Hd.
        + apply startswith_char in Hd as [s' Hs'].
          destruct (Hstrip 123%N) as (_ & _ & ?); [rewrite Hs'; by left|done].
        + simpl. rewrite chord_re_needs_bracket, tag_re_needs_angle; [done| |].
          * intros Hin. by destruct (Hstrip _ Hin) as (_ & ? & _).
          * intros Hin. by destruct (Hstrip _ Hin) as (? & _ & _). }
      rewrite IH. by rewrite <- app_assoc. }
  apply Hloop.
Qed.

Lemma chordpro_to_plain_plain_text_witness :
  let cp := lit " a b " ++ [LF] ++ lit "c" in
  (91%N ∉ cp) /\ (60%N ∉ cp) /\ (123%N ∉ cp) /\
  chordpro_to_plain cp = [lit "a b"; lit "c"].
Proof.
  intros cp.
  assert (forall c : N, contains [c] cp = false -> c ∉ cp) as Hno.
  { intros c Hc Hin%contains_char. congruence. }
  assert (91%N ∉ cp) as H1 by (apply Hno; vm_compute; reflexivity).
  assert (60%N ∉ cp) as H2 by (apply Hno; vm_compute; reflexivity).
  assert (123%N ∉ cp) as H3 by (apply Hno; vm_compute; reflexivity).
  split; [exact H1|]. split; [exact H2|]. split; [exact H3|].
  exact (chordpro_to_plain_plain_text cp H1 H2 H3).
Defined.

(** ** More on [generate] *)

Lemma strip_spaces (s : str) :
  Forall (fun c => isspace c = true) s -> strip s = [].
Proof.
  intros Hs. unfold strip, rstrip.
  rewrite <- (app_nil_r s) at 1. by rewrite lstrip_spaces.
Qed.

Lemma split_groups_are_runs (lines : list str) :
  Forall is_run (split_groups lines).
Proof.
  destruct (layout_exists lines) as (b0 & segs & Hsep & ->).
  rewrite split_groups_layout by done. by apply separated_runs.
Qed.

Lemma clean_group_elem (g : list str) (ln : str) :
  ln ∈ clean_group g -> ln ∈ g /\ 58%N ∉ ln.
Proof.
  unfold clean_group. rewrite list_elem_of_In, filter_In, <- list_elem_of_In.
  intros [Hin Hc]. split; [done|].
  intros Hcolon%contains_char. change [58%N] with (lit ":") in Hcolon.
  by rewrite Hcolon in Hc.
Qed.

Lemma chordpro_to_plain_token_free (cp : str) :
  Forall (fun r : str => token_free chord_token r /\ token_free tag_token r)
    (chordpro_to_plain cp).
Proof.
  unfold chordpro_to_plain.
  destruct (plain_loop_output (splitlines cp) []) as (outs & -> & Houts).
  induction Houts as [|ln o lines outs Ho _ IH]; [constructor|].
  simpl. apply Forall_app. split; [|exact IH].
  pose proof Ho as (t & _ & [[_ ->]|[_ (mid & r & _ & _ & ->)]]);
    [constructor|].
  constructor; [|constructor]. by eapply line_output_token_free.
Qed.

Section GenerateMore.
Variable world : Type.
Variable fetch_chordpro_url : str -> world -> result str * world.
Variable download_chordpro : str -> world -> result str * world.

(** An invariant of the chunks that every group keeps is kept by the
    whole run; [G] is any property of the groups of a song text. *)
Lemma for_each_chunks_inv (G : list str -> Prop)
    (I : list (list str) -> Prop) (m : Z)
    (groups : list (list str)) (acc acc' : list (list str)) :
  (forall acc g acc', I acc -> G g ->
     group_chunks m acc g = Ok acc' -> I acc') ->
  Forall G groups -> I acc ->
  for_each (group_chunks m) groups acc = Ok acc' -> I acc'.
Proof.
  intros Hstep Hruns. revert acc.
  induction Hruns as [|g groups Hg _ IH]; intros acc Hacc; simpl.
  - by intros [= <-].
  - destruct (group_chunks m acc g) as [acc1|e] eqn:Hg1; simpl; [|done].
    apply IH. by eapply Hstep.
Qed.

Lemma url_loop_chunks_inv (G : list str -> Prop)
    (I : list (list str) -> Prop) (m : Z)
    (urls : list str) (acc acc' : list (list str)) (w w' : world) :
  (forall cp, Forall G (split_groups (chordpro_to_plain cp))) ->
  (forall acc g acc', I acc -> G g ->
     group_chunks m acc g = Ok acc' -> I acc') ->
  I acc ->
  url_loop world fetch_chordpro_url download_chordpro (group_chunks m)
    urls acc w = (Ok acc', w') ->
  I acc'.
Proof.
  intros HG Hstep. revert acc w. induction urls as [|url urls IH];
    intros acc w Hacc; simpl.
  - by intros [= <- _].
  - unfold url_body. destruct (decide (strip url = [])); [by apply IH|].
    destruct (fetch_chordpro_url (strip url) w) as [[txt_url|e] w1]; [|done].
    destruct (download_chordpro txt_url w1) as [[cp_text|e] w2]; [|done].
    destruct (for_each (group_chunks m)
                (split_groups (chordpro_to_plain cp_text)) acc)
      as [acc1|e] eqn:Hgroups; [|done].
    apply IH. eapply (for_each_chunks_inv G); eauto.
Qed.

(** Blank URL lines are passed over. *)
Lemma url_loop_skip_blanks {S} (gb : S -> list str -> result S)
    (blanks urls : list str) (st : S) (w : world) :
  Forall (fun b => strip b = []) blanks ->
  url_loop world fetch_chordpro_url download_chordpro gb (blanks ++ urls) st w
  = url_loop world fetch_chordpro_url download_chordpro gb urls st w.
Proof.
  induction 1 as [|b blanks Hb _ IH]; [done|].
  rewrite <- IH. cbn [app url_loop]. unfold url_body.
  rewrite Hb. by rewrite decide_True by done.
Qed.

(** The deck of a run is the text of its chunks. *)
Lemma generate_deck_text (urls : str) (m : Z) (w w' : world) (deck : str) :
  generate world fetch_chordpro_url download_chordpro urls m w = (Ok deck, w') ->
  exists chunks : list (list str),
    generate_chunks world fetch_chordpro_url download_chordpro urls m w
      = (Ok chunks, w') /\
    deck = deck_text chunks.
Proof.
  unfold generate, generate_chunks. intros Hgen.
  destruct (url_loop_lockstep world fetch_chordpro_url download_chordpro
              m (splitlines urls) [lit "---" ++ [LF]] [] w)
    as (ra & rb & w1 & Ha & Hb & Hstep).
  rewrite Ha in Hgen. rewrite Hb.
  destruct ra as [md|e]; [|done]. injection Hgen as <- <-.
  destruct rb as [chunks|e']; [|done]. destruct Hstep as (cs & -> & -> & Hcs).
  exists cs. split; [done|].
  change ([lit "---" ++ [LF]] ++ blocks_of cs)
    with ((lit "---" ++ [LF]) :: blocks_of cs).
  rewrite join_blocks, app_assoc. apply strip_deck.
Qed.

(** With no URL in the field the loop does nothing: the deck is [---]
    and nothing is requested. *)
Lemma generate_blank_urls (urls : str) (m : Z) (w : world) :
  Forall (fun c => isspace c = true) urls ->
  generate world fetch_chordpro_url download_chordpro urls m w
    = (Ok (lit "---"), w).
Proof.
  intros Hurls. unfold generate.
  assert (Forall (Forall (fun c => isspace c = true)) (splitlines urls))
    as Hlines.
  { apply splitlines_from_chars; [constructor|].
    intros c Hc _. rewrite Forall_forall in Hurls. by apply Hurls. }
  assert (forall md,
            url_loop world fetch_chordpro_url download_chordpro
              (group_body m) (splitlines urls) md w = (Ok md, w)) as ->.
  { induction Hlines as [|url lines Hurl _ IH]; intros md; simpl; [done|].
    unfold url_body. by rewrite strip_spaces, decide_True by done. }
  by vm_compute.
Qed.

(** X11. What a slide can hold: when [max_lines >= 1] and [generate]
    returns a deck, the deck is the text of the chunks of the run, which
    each have between one and [max_lines] lines, every line being
    non-empty and without [:]. *)
Theorem generate_slides_bounded (urls : str) (m : Z) (w w' : world)
    (deck : str) :
  1 <= m ->
  generate world fetch_chordpro_url download_chordpro urls m w = (Ok deck, w') ->
  exists chunks : list (list str),
    generate_chunks world fetch_chordpro_url download_chordpro urls m w
      = (Ok chunks, w') /\
    deck = deck_text chunks /\
    Forall (fun ch : list str =>
              ch <> [] /\ len ch <= m /\
              Forall (fun ln : str => ln <> [] /\ 58%N ∉ ln) ch) chunks.
Proof.
  intros Hm (chunks & Hchunks & ->)%generate_deck_text.
  exists chunks. split; [done|]. split; [done|].
  unfold generate_chunks in Hchunks.
  eapply (url_loop_chunks_inv is_run _ m _ [] chunks w w');
    [intros cp; apply split_groups_are_runs| |constructor|exact Hchunks].
  clear -Hm. intros acc g acc' Hacc [_ Hg]. unfold group_chunks.
  destruct (decide (clean_group g = [])) as [|Hne]; [by intros [= <-]|].
  destruct (chunk_even (clean_group g) m) as [cs|e] eqn:Hcs; simpl; [|done].
  intros [= <-]. apply Forall_app. split; [done|].
  pose proof (chunk_even_chunks _ _ _ Hne Hcs) as Hin.
  pose proof (chunk_even_le_max _ _ _ Hm Hcs) as Hle.
  rewrite Forall_forall in Hin, Hle. apply Forall_forall. intros ch Hch.
  destruct (Hin ch Hch) as [Hch0 Hsub]. split; [done|]. split; [by apply Hle|].
  apply Forall_forall. intros ln Hln.
  destruct (clean_group_elem g ln (Hsub ln Hln)) as [Hlg Hcolon].
  split; [|done]. rewrite Forall_forall in Hg. by apply Hg.
Qed.

(** X12. A [max_lines] that is not positive: when [generate] returns,
    the deck is [---] alone; every group that survives the cleaner either
    raises [ZeroDivisionError] or gives no chunk. *)
Theorem generate_nonpositive_max (urls : str) (m : Z) (w w' : world)
    (deck : str) :
  m <= 0 ->
  generate world fetch_chordpro_url download_chordpro urls m w = (Ok deck, w') ->
  deck = lit "---".
Proof.
  intros Hm (chunks & Hchunks & ->)%generate_deck_text.
  unfold generate_chunks in Hchunks.
  assert (chunks = []) as ->; [|done].
  eapply (url_loop_chunks_inv is_run (fun acc => acc = []) m _ [] chunks w w');
    [intros cp; apply split_groups_are_runs| |done|exact Hchunks].
  clear -Hm. intros acc g acc' -> _. unfold group_chunks.
  destruct (decide (clean_group g = [])) as [|Hne]; [by intros [= <-]|].
  destruct (chunk_even (clean_group g) m) as [cs|e] eqn:Hcs; simpl; [|done].
  intros [= <-]. by rewrite (chunk_even_nonpositive_nil _ _ _ Hne Hm Hcs).
Qed.

(** X13. The first failure ends the run: after blank lines, when the
    first URL cannot be fetched, or its song text cannot be downloaded,
    [generate] raises that exception; no later URL is requested. *)
Theorem generate_first_failure (urls : str) (blanks rest : list str)
    (u : str) (m : Z) (w w1 : world) (e : exn) :
  splitlines urls = blanks ++ u :: rest ->
  Forall (fun b => strip b = []) blanks ->
  strip u <> [] ->
  (fetch_chordpro_url (strip u) w = (Raise e, w1) ->
   generate world fetch_chordpro_url download_chordpro urls m w
     = (Raise e, w1)) /\
  (forall (t : str) (w2 : world),
     fetch_chordpro_url (strip u) w = (Ok t, w1) ->
     download_chordpro t w1 = (Raise e, w2) ->
     generate world fetch_chordpro_url download_chordpro urls m w
       = (Raise e, w2)).
Proof.
  intros Hlines Hblanks Hu. unfold generate.
  rewrite Hlines, url_loop_skip_blanks by done.
  simpl. unfold url_body. rewrite decide_False by done. split.
  - by intros ->.
  - intros t w2 -> ->. done.
Qed.

(** X14. No markup reaches a slide: when [generate] returns a deck,
    whatever [max_lines] is, the deck is the text of the chunks of the
    run, in whose lines no bracketed token and no angle-bracket token
    occurs. *)
Theorem generate_no_markup (urls : str) (m : Z) (w w' : world) (deck : str) :
  generate world fetch_chordpro_url download_chordpro urls m w = (Ok deck, w') ->
  exists chunks : list (list str),
    generate_chunks world fetch_chordpro_url download_chordpro urls m w
      = (Ok chunks, w') /\
    deck = deck_text chunks /\
    Forall (Forall (fun ln : str =>
                      token_free chord_token ln /\ token_free tag_token ln))
      chunks.
Proof.
  intros (chunks & Hchunks & ->)%generate_deck_text.
  exists chunks. split; [done|]. split; [done|].
  unfold generate_chunks in Hchunks.
  set (clean := fun ln : str =>
         token_free chord_token ln /\ token_free tag_token ln).
  eapply (url_loop_chunks_inv (Forall clean) (Forall (Forall clean))
            m _ [] chunks w w'); [| |constructor|exact Hchunks].
  - intros cp. apply Forall_forall. intros g Hg.
    apply Forall_forall. intros ln Hln.
    pose proof (chordpro_to_plain_token_free cp) as Hall.
    rewrite Forall_forall in Hall. eapply Hall, split_groups_lines; eauto.
  - intros acc g acc' Hacc Hg. unfold group_chunks.
    destruct (decide (clean_group g = [])) as [|Hne]; [by intros [= <-]|].
    destruct (chunk_even (clean_group g) m) as [cs|e] eqn:Hcs; simpl; [|done].
    intros [= <-]. apply Forall_app. split; [done|].
    pose proof (chunk_even_chunks _ _ _ Hne Hcs) as Hin.
    eapply Forall_impl; [exact Hin|]. intros ch [_ Hsub].
    apply Forall_forall. intros ln Hln. rewrite Forall_forall in Hg.
    by apply Hg, clean_group_lines, Hsub.
Qed.

End GenerateMore.

(** X10. A form without URLs: when the [urls] field is absent, empty or
    only whitespace (line breaks included), the route requests nothing;
    it returns the deck [---] when the [max_lines] field is absent or
    [int] reads an integer from it, and otherwise it raises what [int]
    raises ([ValueError], before the loop is entered). *)
Theorem generate_blank_form (world : Type)
    (fetch_chordpro_url download_chordpro : str -> world -> result str * world)
    (int : str -> result Z) (urls max_lines : option str) (w : world) :
  Forall (fun c => isspace c = true) (default [] urls) ->
  generate_request world fetch_chordpro_url download_chordpro int
      urls max_lines w
    = match form_int int max_lines with
      | Ok _ => (Ok (lit "---"), w)
      | Raise e => (Raise e, w)
      end.
Proof.
  intros Hurls. unfold generate_request.
  destruct (form_int int max_lines) as [m|e]; [|done].
  by apply generate_blank_urls.
Qed.

Lemma generate_blank_form_witness :
  let urls := lit "  " ++ [LF; CR] ++ lit " " in
  let fetch := fun (u : str) (w : nat) => (Ok u, S w) in
  let int := fun s : str =>
    if decide (s = lit "3") then Ok 3 else Raise ValueError in
  Forall (fun c => isspace c = true) (default [] (Some urls)) /\
  generate_request nat fetch fetch int (Some urls) (Some (lit "3")) 0%nat
    = (Ok (lit "---"), 0%nat) /\
  generate_request nat fetch fetch int (Some urls) None 0%nat
    = (Ok (lit "---"), 0%nat) /\
  generate_request nat fetch fetch int (Some urls) (Some []) 0%nat
    = (Raise ValueError, 0%nat).
Proof.
  intros urls fetch int.
  assert (Forall (fun c => isspace c = true) (default [] (Some urls)))
    as Hurls by (repeat constructor).
  split; [exact Hurls|]. split; [|split].
  - exact (generate_blank_form nat fetch fetch int (Some urls)
             (Some (lit "3")) 0%nat Hurls).
  - exact (generate_blank_form nat fetch fetch int (Some urls) None 0%nat
             Hurls).
  - exact (generate_blank_form nat fetch fetch int (Some urls) (Some [])
             0%nat Hurls).
Defined.

Lemma generate_slides_bounded_witness :
  let fetch := fun (u : str) (w : unit) => (Ok u, w) in
  let download := fun (_ : str) (w : unit) =>
    (Ok (lit "Verse:" ++ [LF] ++ lit "[C]a" ++ [LF] ++ lit "b" ++ [LF] ++
         lit "c"), w) in
  1 <= 2 /\
  generate unit fetch download (lit "u") 2 tt
    = (Ok (deck_text [[lit "a"; lit "b"]; [lit "c"]]), tt) /\
  exists chunks : list (list str),
    generate_chunks unit fetch download (lit "u") 2 tt = (Ok chunks, tt) /\
    deck_text [[lit "a"; lit "b"]; [lit "c"]] = deck_text chunks /\
    Forall (fun ch : list str =>
              ch <> [] /\ len ch <= 2 /\
              Forall (fun ln : str => ln <> [] /\ 58%N ∉ ln) ch) chunks.
Proof.
  intros fetch download.
  assert (1 <= 2) as Hm by lia.
  assert (generate unit fetch download (lit "u") 2 tt
            = (Ok (deck_text [[lit "a"; lit "b"]; [lit "c"]]), tt)) as Hrun
    by (vm_compute; reflexivity).
  split; [exact Hm|]. split; [exact Hrun|].
  exact (generate_slides_bounded unit fetch download (lit "u") 2 tt tt _
           Hm Hrun).
Defined.

Lemma generate_nonpositive_max_witness :
  let fetch := fun (u : str) (w : unit) => (Ok u, w) in
  let download := fun (_ : str) (w : unit) =>
    (Ok (lit "a" ++ [LF] ++ lit "b"), w) in
  -1 <= 0 /\
  generate unit fetch download (lit "u") (-1) tt = (Ok (lit "---"), tt) /\
  lit "---" = lit "---".
Proof.
  intros fetch download.
  assert (-1 <= 0) as Hm by lia.
  assert (generate unit fetch download (lit "u") (-1) tt
            = (Ok (lit "---"), tt)) as Hrun by (vm_compute; reflexivity).
  split; [exact Hm|]. split; [exact Hrun|].
  exact (generate_nonpositive_max unit fetch download (lit "u") (-1)
           tt tt (lit "---") Hm Hrun).
Defined.

Lemma generate_first_failure_witness :
  let fetch := fun (_ : str) (w : nat) =>
    (Raise HTTPError : result str, S w) in
  let download := fun (u : str) (w : nat) => (Ok u, w) in
  let urls := lit " " ++ [LF] ++ lit "u1" ++ [LF] ++ lit "u2" in
  splitlines urls = [lit " "] ++ lit "u1" :: [lit "u2"] /\
  Forall (fun b => strip b = []) [lit " "] /\
  strip (lit "u1") <> [] /\
  generate nat fetch download urls 5 0%nat = (Raise HTTPError, 1%nat).
Proof.
  intros fetch download urls.
  assert (splitlines urls = [lit " "] ++ lit "u1" :: [lit "u2"]) as Hlines
    by (vm_compute; reflexivity).
  assert (Forall (fun b => strip b = []) [lit " "]) as Hblanks
    by (repeat constructor).
  assert (strip (lit "u1") <> []) as Hu by (vm_compute; discriminate).
  split; [exact Hlines|]. split; [exact Hblanks|]. split; [exact Hu|].
  exact (proj1 (generate_first_failure nat fetch download urls [lit " "]
                  [lit "u2"] (lit "u1") 5 0%nat 1%nat HTTPError
                  Hlines Hblanks Hu) eq_refl).
Defined.

Lemma generate_no_markup_witness :
  let fetch := fun (u : str) (w : unit) => (Ok u, w) in
  let download := fun (_ : str) (w : unit) =>
    (Ok (lit "[C]a<b>b</b>" ++ [LF] ++ lit "c"), w) in
  generate unit fetch download (lit "u") 5 tt
    = (Ok (deck_text [[lit "ab"; lit "c"]]), tt) /\
  exists chunks : list (list str),
    generate_chunks unit fetch download (lit "u") 5 tt = (Ok chunks, tt) /\
    deck_text [[lit "ab"; lit "c"]] = deck_text chunks /\
    Forall (Forall (fun ln : str =>
                      token_free chord_token ln /\ token_free tag_token ln))
      chunks.
Proof.
  intros fetch download.
  assert (generate unit fetch download (lit "u") 5 tt
            = (Ok (deck_text [[lit "ab"; lit "c"]]), tt)) as Hrun
    by (vm_compute; reflexivity).
  split; [exact Hrun|].
  exact (generate_no_markup unit fetch download (lit "u") 5 tt tt _ Hrun).
Defined.

(** X15. A page without a song: when the page of the first URL (after
    blank lines) is received with a status outside 400..599 and embeds no
    reference, [generate] over [fetch_chordpro_url] and
    [download_chordpro] aborts with 400 after that one request; nothing
    is downloaded. *)
Theorem generate_page_without_song (world : Type)
    (requests_get : str -> world -> result http_response * world)
    (urls : str) (blanks rest : list str) (u : str) (m : Z)
    (w w1 : world) (r : http_response) :
  splitlines urls = blanks ++ u :: rest ->
  Forall (fun b => strip b = []) blanks ->
  strip u <> [] ->
  requests_get (strip u) w = (Ok r, w1) ->
  status_code r < 400 \/ 600 <= status_code r ->
  (forall pre v, song_url v -> ~ embeds_at (text r) pre v) ->
  generate world (fetch_chordpro_url world requests_get)
    (download_chordpro world requests_get) urls m w
    = (Raise (Abort 400), w1).
Proof.
  intros Hlines Hblanks Hu Hget Hst Hno. unfold generate.
  rewrite Hlines, url_loop_skip_blanks by done.
  simpl. unfold url_body. rewrite decide_False by done.
  unfold fetch_chordpro_url, raise_for_status. rewrite Hget.
  assert ((400 <=? status_code r) && (status_code r <? 600) = false) as ->.
  { apply andb_false_iff. destruct Hst; [left|right]; lia. }
  destruct (re_search song_re (text r)) as [[start n]|] eqn:Hs; [|done].
  destruct (song_search_Some _ _ _ Hs) as (pre & Hv & Hemb & _).
  by destruct (Hno pre _ Hv).
Qed.

Lemma generate_page_without_song_witness :
  let get := fun (_ : str) (w : nat) =>
    (Ok (HttpResponse 200 (lit "<html>nothing</html>") []), S w) in
  splitlines (lit "u1") = [] ++ lit "u1" :: [] /\
  strip (lit "u1") <> [] /\
  (200 < 400 \/ 600 <= 200) /\
  (forall pre v, song_url v ->
     ~ embeds_at (lit "<html>nothing</html>") pre v) /\
  generate nat (fetch_chordpro_url nat get) (download_chordpro nat get)
    (lit "u1") 5 0%nat = (Raise (Abort 400), 1%nat).
Proof.
  intros get.
  assert (splitlines (lit "u1") = [] ++ lit "u1" :: []) as Hlines
    by (vm_compute; reflexivity).
  assert (strip (lit "u1") <> []) as Hu by (vm_compute; discriminate).
  assert (200 < 400 \/ 600 <= 200) as Hst by (left; lia).
  assert (forall pre v, song_url v ->
            ~ embeds_at (lit "<html>nothing</html>") pre v) as Hno.
  { apply song_search_None. vm_compute. reflexivity. }
  split; [exact Hlines|]. split; [exact Hu|]. split; [exact Hst|].
  split; [exact Hno|].
  exact (generate_page_without_song nat get (lit "u1") [] [] (lit "u1") 5
           0%nat 1%nat (HttpResponse 200 (lit "<html>nothing</html>") [])
           Hlines (Forall_nil_2 _) Hu eq_refl Hst Hno).
Defined.

(** ** The build and preview routes, together *)

Lemma startswith_app (p s : str) : startswith (p ++ s) p = true.
Proof. induction p as [|c p IH]; simpl; [done|]. by rewrite N.eqb_refl. Qed.

Lemma startswith_char_false (c : N) (s : str) :
  startswith s [c] = false <-> forall s', s <> c :: s'.
Proof.
  rewrite <- not_true_iff_false, startswith_char. split.
  - intros Hno s' ->. apply Hno. eauto.
  - intros Hno [s' ->]. by eapply Hno.
Qed.

(** What [os.path.join] puts under a directory lies below it. *)
Lemma below_path_join (root name : str) :
  root <> [] -> endswith root (lit "/") = false ->
  startswith name (lit "/") = false ->
  below root (path_join root name).
Proof.
  intros Hroot Hend Hname. right. unfold path_join.
  rewrite Hname, decide_False, Hend by done.
  by rewrite app_assoc, startswith_app.
Qed.

(** X16. A successful build can be previewed: when the markdown is not
    blank, the builder exits with zero and its captured stdout and stderr
    decode as text, [build] redirects to [/preview/<id>/] with [id] the
    base name of the temporary directory, keeps what the builder wrote,
    records [<tmp>/site] under [id] and leaves every other entry of
    [builds] alone; [preview] of that [id] then serves from [<tmp>/site]
    and does not answer 404 for an unknown build. *)
Theorem build_then_preview
    (mkdtemp : str -> gmap str node -> str)
    (mkslides : list str -> gmap str node -> exited * gmap str node)
    (decode : list N -> result str) (deletable : str -> bool)
    (markdown : str) (st : state) (out err : str) :
  let tmp_root := mkdtemp (lit "mkslides_") (fs st) in
  let run := builder_run mkdtemp mkslides markdown st in
  let id := basename tmp_root in
  let site := path_join tmp_root (lit "site") in
  let st' := (build mkdtemp mkslides decode deletable markdown st).2 in
  strip markdown <> [] -> exit_code run.1 = 0 ->
  decode (stdout_bytes run.1) = Ok out ->
  decode (stderr_bytes run.1) = Ok err ->
  (build mkdtemp mkslides decode deletable markdown st).1
    = Ok (Redirect (lit "/preview/" ++ id ++ lit "/")) /\
  fs st' = run.2 /\
  builds st' !! id = Some site /\
  (forall id' : str, id' <> id -> builds st' !! id' = builds st !! id') /\
  (forall (R : Type) (send : str -> str -> gmap str node -> result R)
          (path : str),
     preview R send id path st' =
     if decide (path = [])
     then default_document R send site [lit "slides.html"; lit "index.html"]
            (fs st')
     else send site path (fs st')).
Proof.
  intros tmp_root run id site st' Hmd Hrc Hout Herr. subst run st' id site.
  unfold build, builder_run, build_argv, subprocess_run in *.
  fold tmp_root in Hrc, Hout, Herr |- *.
  rewrite decide_False by done.
  destruct (mkslides _ _) as [p fs3]. simpl in Hrc, Hout, Herr.
  rewrite Hout, Herr, decide_True by done. simpl.
  split; [done|]. split; [done|]. split; [apply lookup_insert_eq|].
  split; [intros id' Hid'; by apply lookup_insert_ne|].
  intros R send path. unfold preview. simpl. by rewrite lookup_insert_eq.
Qed.

Lemma build_then_preview_witness :
  let mkdtemp := fun (_ : str) (_ : gmap str node) => lit "/tmp/mkslides_x" in
  let mkslides := fun (_ : list str) (m : gmap str node) =>
    (Exited 0 (lit "ok") [],
     <[lit "/tmp/mkslides_x/site/index.html" := File (lit "<html>")]> m) in
  let deletable := fun _ : str => true in
  let st := State ∅ ∅ in
  let p := (builder_run mkdtemp mkslides (lit "# hi") st).1 in
  let st' := (build mkdtemp mkslides decode_ascii deletable (lit "# hi") st).2 in
  strip (lit "# hi") <> [] /\
  exit_code p = 0 /\
  decode_ascii (stdout_bytes p) = Ok (lit "ok") /\
  decode_ascii (stderr_bytes p) = Ok [] /\
  (build mkdtemp mkslides decode_ascii deletable (lit "# hi") st).1
    = Ok (Redirect (lit "/preview/mkslides_x/")) /\
  builds st' !! lit "mkslides_x" = Some (lit "/tmp/mkslides_x/site").
Proof.
  intros mkdtemp mkslides deletable st p st'.
  assert (strip (lit "# hi") <> []) as Hmd by (vm_compute; discriminate).
  assert (exit_code p = 0) as Hrc by reflexivity.
  assert (decode_ascii (stdout_bytes p) = Ok (lit "ok")) as Hout
    by reflexivity.
  assert (decode_ascii (stderr_bytes p) = Ok []) as Herr by reflexivity.
  destruct (build_then_preview mkdtemp mkslides decode_ascii deletable
              (lit "# hi") st (lit "ok") [] Hmd Hrc Hout Herr)
    as (Hresp & _ & Hid & _).
  split; [exact Hmd|]. split; [exact Hrc|]. split; [exact Hout|].
  split; [exact Herr|]. split; [exact Hresp|exact Hid].
Defined.

(** X17. The cleanup of a failed build is confined to the temporary
    directory and to what the system lets go: when the markdown is not
    blank, the builder exits with a code other than zero and its captured
    stdout and stderr decode as text, what the builder left outside the
    temporary directory is still there, and so is whatever the system
    refuses to remove; for a temporary directory whose path is not empty
    and does not end with [/], the [slides.md] that [build] wrote and the
    [site] directory are gone where their removal succeeds. *)
Theorem build_failure_cleanup
    (mkdtemp : str -> gmap str node -> str)
    (mkslides : list str -> gmap str node -> exited * gmap str node)
    (decode : list N -> result str) (deletable : str -> bool)
    (markdown : str) (st : state) (out err : str) :
  let tmp_root := mkdtemp (lit "mkslides_") (fs st) in
  let run := builder_run mkdtemp mkslides markdown st in
  let st' := (build mkdtemp mkslides decode deletable markdown st).2 in
  strip markdown <> [] -> exit_code run.1 <> 0 ->
  decode (stdout_bytes run.1) = Ok out ->
  decode (stderr_bytes run.1) = Ok err ->
  (forall path : str,
     ~ below tmp_root path \/ deletable path = false ->
     fs st' !! path = run.2 !! path) /\
  (tmp_root <> [] -> endswith tmp_root (lit "/") = false ->
   (deletable (path_join tmp_root (lit "slides.md")) = true ->
    fs st' !! path_join tmp_root (lit "slides.md") = None) /\
   (deletable (path_join tmp_root (lit "site")) = true ->
    fs st' !! path_join tmp_root (lit "site") = None)).
Proof.
  intros tmp_root run st' Hmd Hrc Hout Herr. subst run st'.
  unfold build, builder_run, build_argv, subprocess_run in *.
  fold tmp_root in Hrc, Hout, Herr |- *.
  rewrite decide_False by done.
  destruct (mkslides _ _) as [p fs3]. simpl in Hrc, Hout, Herr.
  rewrite Hout, Herr, decide_False by done. simpl. split.
  - intros path Hpath. by apply rmtree_kept.
  - intros Hroot Hend.
    split; intros Hdel; apply rmtree_below; try done;
      by apply below_path_join.
Qed.

Lemma build_failure_cleanup_witness :
  let mkdtemp := fun (_ : str) (_ : gmap str node) => lit "/tmp/mkslides_x" in
  let mkslides := fun (_ : list str) (m : gmap str node) =>
    (Exited 2 [] (lit "boom"), <[lit "/var/log/x" := File (lit "l")]> m) in
  let deletable := fun _ : str => true in
  let st := State ∅ ∅ in
  let p := (builder_run mkdtemp mkslides (lit "# hi") st).1 in
  let st' := (build mkdtemp mkslides decode_ascii deletable (lit "# hi") st).2 in
  strip (lit "# hi") <> [] /\
  exit_code p <> 0 /\
  decode_ascii (stdout_bytes p) = Ok [] /\
  decode_ascii (stderr_bytes p) = Ok (lit "boom") /\
  lit "/tmp/mkslides_x" <> [] /\
  endswith (lit "/tmp/mkslides_x") (lit "/") = false /\
  fs st' !! lit "/tmp/mkslides_x/slides.md" = None /\
  fs st' !! lit "/tmp/mkslides_x/site" = None.
Proof.
  intros mkdtemp mkslides deletable st p st'.
  assert (strip (lit "# hi") <> []) as Hmd by (vm_compute; discriminate).
  assert (exit_code p <> 0) as Hrc by (simpl; lia).
  assert (decode_ascii (stdout_bytes p) = Ok []) as Hout by reflexivity.
  assert (decode_ascii (stderr_bytes p) = Ok (lit "boom")) as Herr
    by reflexivity.
  assert (lit "/tmp/mkslides_x" <> []) as Hroot by discriminate.
  assert (endswith (lit "/tmp/mkslides_x") (lit "/") = false) as Hend
    by reflexivity.
  split; [exact Hmd|]. split; [exact Hrc|]. split; [exact Hout|].
  split; [exact Herr|]. split; [exact Hroot|]. split; [exact Hend|].
  destruct (proj2 (build_failure_cleanup mkdtemp mkslides decode_ascii
                     deletable (lit "# hi") st [] (lit "boom")
                     Hmd Hrc Hout Herr) Hroot Hend) as [Hmdf Hsite].
  split; [exact (Hmdf eq_refl) | exact (Hsite eq_refl)].
Defined.

(** X18. Blank markdown is refused before anything is done: when the
    [markdown] field is empty or only whitespace, [build] aborts with 400
    and the state (file system and [builds]) is as it was. *)
Theorem build_blank_markdown
    (mkdtemp : str -> gmap str node -> str)
    (mkslides : list str -> gmap str node -> exited * gmap str node)
    (decode : list N -> result str) (deletable : str -> bool)
    (markdown : str) (st : state) :
  Forall (fun c => isspace c = true) markdown ->
  build mkdtemp mkslides decode deletable markdown st
    = (Raise (Abort 400), st).
Proof.
  intros Hmd. unfold build. by rewrite strip_spaces, decide_True by done.
Qed.

Lemma build_blank_markdown_witness :
  let mkdtemp := fun (_ : str) (_ : gmap str node) => lit "/tmp/mkslides_x" in
  let mkslides := fun (_ : list str) (m : gmap str node) =>
    (Exited 0 [] [], m) in
  let deletable := fun _ : str => true in
  Forall (fun c => isspace c = true) (lit " " ++ [LF]) /\
  build mkdtemp mkslides decode_ascii deletable (lit " " ++ [LF]) (State ∅ ∅)
    = (Raise (Abort 400), State ∅ ∅).
Proof.
  intros mkdtemp mkslides deletable.
  assert (Forall (fun c => isspace c = true) (lit " " ++ [LF])) as Hmd
    by (repeat constructor).
  split; [exact Hmd|].
  exact (build_blank_markdown mkdtemp mkslides decode_ascii deletable _
           (State ∅ ∅) Hmd).
Defined.

(** X20. Output that is not text: when the markdown is not blank and the
    captured stdout of the builder does not decode, or it does and the
    captured stderr does not, [build] raises what the decoder raises,
    whatever the exit code of the builder: there is neither a redirect
    nor an error page, the file system is as the builder left it (the
    temporary directory is not cleaned up) and [builds] is unchanged. *)
Theorem build_undecodable_output
    (mkdtemp : str -> gmap str node -> str)
    (mkslides : list str -> gmap str node -> exited * gmap str node)
    (decode : list N -> result str) (deletable : str -> bool)
    (markdown : str) (st : state) (e : exn) :
  let run := builder_run mkdtemp mkslides markdown st in
  strip markdown <> [] ->
  decode (stdout_bytes run.1) = Raise e \/
  ((exists out : str, decode (stdout_bytes run.1) = Ok out) /\
   decode (stderr_bytes run.1) = Raise e) ->
  build mkdtemp mkslides decode deletable markdown st
    = (Raise e, State run.2 (builds st)).
Proof.
  intros run Hmd Hdec. subst run.
  unfold build, builder_run, build_argv, subprocess_run in *.
  rewrite decide_False by done.
  destruct (mkslides _ _) as [p fs3]. simpl in Hdec |- *.
  destruct Hdec as [Hout|[[out Hout] Herr]]; rewrite Hout; [done|].
  by rewrite Herr.
Qed.

Lemma build_undecodable_output_witness :
  let mkdtemp := fun (_ : str) (_ : gmap str node) => lit "/tmp/mkslides_x" in
  let mkslides := fun (_ : list str) (m : gmap str node) =>
    (Exited 0 [255%N] [], m) in
  let deletable := fun _ : str => true in
  let st := State ∅ ∅ in
  let run := builder_run mkdtemp mkslides (lit "# hi") st in
  strip (lit "# hi") <> [] /\
  exit_code run.1 = 0 /\
  decode_ascii (stdout_bytes run.1) = Raise UnicodeDecodeError /\
  build mkdtemp mkslides decode_ascii deletable (lit "# hi") st
    = (Raise UnicodeDecodeError, State run.2 ∅).
Proof.
  intros mkdtemp mkslides deletable st run.
  assert (strip (lit "# hi") <> []) as Hmd by (vm_compute; discriminate).
  assert (decode_ascii (stdout_bytes run.1) = Raise UnicodeDecodeError)
    as Hout by reflexivity.
  split; [exact Hmd|]. split; [reflexivity|]. split; [exact Hout|].
  exact (build_undecodable_output mkdtemp mkslides decode_ascii deletable
           (lit "# hi") st UnicodeDecodeError Hmd (or_introl Hout)).
Defined.

(** X19. What [preview] refuses and prefers: a build id that is not in
    [builds] gives 404 whatever the path; for a known build and an empty
    path, [slides.html] is served when it exists, else [index.html] when
    it exists, else 404. *)
Theorem preview_default_document (R : Type)
    (send : str -> str -> gmap str node -> result R)
    (build_id path : str) (st : state) :
  (builds st !! build_id = None ->
   preview R send build_id path st = Raise (Abort 404)) /\
  (forall root : str,
     builds st !! build_id = Some root ->
     (is_Some (fs st !! path_join root (lit "slides.html")) ->
      preview R send build_id [] st = send root (lit "slides.html") (fs st)) /\
     (fs st !! path_join root (lit "slides.html") = None ->
      is_Some (fs st !! path_join root (lit "index.html")) ->
      preview R send build_id [] st = send root (lit "index.html") (fs st)) /\
     (fs st !! path_join root (lit "slides.html") = None ->
      fs st !! path_join root (lit "index.html") = None ->
      preview R send build_id [] st = Raise (Abort 404))).
Proof.
  unfold preview. split; [by intros ->|]. intros root ->. simpl.
  split; [|split].
  - intros Hs. by rewrite decide_True by done.
  - intros Hs Hi. rewrite decide_False by (rewrite Hs; by intros [? ?]).
    by rewrite decide_True by done.
  - intros Hs Hi. rewrite decide_False by (rewrite Hs; by intros [? ?]).
    by rewrite decide_False by (rewrite Hi; by intros [? ?]).
Qed.

Lemma preview_default_document_witness :
  let send := fun (root path : str) (m : gmap str node) =>
    match m !! path_join root path with
    | Some (File c) => Ok c
    | _ => Raise (Abort 404)
    end in
  let st := State ∅ ∅ in
  builds st !! lit "nope" = None /\
  preview str send (lit "nope") (lit "index.html") st = Raise (Abort 404).
Proof.
  intros send st.
  assert (builds st !! lit "nope" = None) as Hid by reflexivity.
  split; [exact Hid|].
  exact (proj1 (preview_default_document str send (lit "nope")
                  (lit "index.html") st) Hid).
Defined.

(** ** Examples *)

Example chordpro_to_plain_ex :
  chordpro_to_plain
    (lit "{title: Song}" ++ [LF] ++ lit "  [C]Hello [/Am]wor<b>ld</b> " ++
     [CR; LF; LF] ++ lit "Verse 1:" ++ [LF] ++ lit "[]a<>[b") =
  [lit "Hello world"; []; lit "Verse 1:"; lit "[]a<>[b"].
Proof. vm_compute. reflexivity. Qed.

(** The bracketed tokens go first, then the angle-bracket tokens of what
    is left. *)
Example chordpro_to_plain_nested :
  chordpro_to_plain (lit "<[C]>a" ++ [LF] ++ lit "<i[C]>b" ++ [LF] ++ lit "[<i>]c")
  = [lit "<>a"; lit "b"; lit "c"].
Proof. vm_compute. reflexivity. Qed.

(** A bracketed token that starts before an angle-bracket token and ends
    inside it takes the opening of the other with it. *)
Example chordpro_to_plain_straddle :
  chordpro_to_plain (lit "[a<b]c>") = [lit "c>"].
Proof. vm_compute. reflexivity. Qed.

(** In [[/]] the slash is the content: [/?] gives way to [[^\]]+]. *)
Example chordpro_to_plain_slash :
  chordpro_to_plain (lit "[/]a" ++ [LF] ++ lit "[]b" ++ [LF] ++ lit "[/c")
  = [lit "a"; lit "[]b"; lit "[/c"].
Proof. vm_compute. reflexivity. Qed.

Example split_groups_ex :
  split_groups [[]; lit "a"; lit "b"; []; []; lit "c"; []] =
  [[lit "a"; lit "b"]; [lit "c"]].
Proof. vm_compute. reflexivity. Qed.

Example clean_group_ex :
  clean_group [lit "Verse 1:"; lit "a"; lit "b:c"; lit "d"] = [lit "a"; lit "d"].
Proof. vm_compute. reflexivity. Qed.

Example chunk_even_7_3 :
  chunk_even [1;2;3;4;5;6;7] 3 = Ok [[1;2;3];[4;5];[6;7]].
Proof. reflexivity. Qed.

Example chunk_even_5_5 :
  chunk_even [1;2;3;4;5] 5 = Ok [[1;2;3;4;5]].
Proof. reflexivity. Qed.

Example chunk_even_neg :
  chunk_even [1;2;3] (-1) = Ok [].
Proof. reflexivity. Qed.

Example chunk_even_neg_zero_div :
  chunk_even [1] (-5) = Raise ZeroDivisionError.
Proof. reflexivity. Qed.
